(** * lnd: wire messages (package lnwire) and the connection manager (server.go)

    A shallow embedding of
    - package [lnwire]: the [Encode], [Decode], [MaxPayloadLength] and
      [String] methods of the messages [CloseComplete], [HTLCAddAccept] and
      [HTLCAddReject], over the element codec ([readElements],
      [writeElements]);
    - [server.go]: the [server] struct, its lifecycle ([Start], [Stop]), the
      peer-set mutator ([peerManager], [addPeer], [removePeer]) and the query
      processor ([queryHandler], [ConnectToPeer]) with its dial goroutine.

    Go integers are [Z] with their wrap-around written out, byte streams are
    [list byte], the peer map is a [gmap], channels are explicit buffers with
    their capacity, and the code a goroutine runs is a computation in a small
    state monad whose outcome says whether the goroutine finished, parked on a
    channel operation, or panicked. What the packages call of btcd ([btcec]
    signatures, [wire] hashes) is an interface, [Lnwire.Btcd], and holds for
    every implementation of it. *)

From Stdlib Require Import ZArith Lia.
From Stdlib.Strings Require Import Byte.
From stdpp Require Import gmap strings list pretty.

Local Open Scope Z_scope.

(** ** Bytes and fixed-width integers *)

Module Bytes.

#[global] Instance byte_eq_decision : EqDecision byte := Byte.byte_eq_dec.

(** [byte(v)] in Go: truncation of an unsigned integer to its low 8 bits. *)
Definition byte_of_Z (z : Z) : byte :=
  default x00 (Byte.of_N (Z.to_N (z mod 256))).

(** [uint64(b)] in Go. *)
Definition Z_of_byte (b : byte) : Z := Z.of_N (Byte.to_N b).

Definition uint64_max : Z := 2 ^ 64 - 1.

Definition is_uint64 (v : Z) : Prop := 0 <= v <= uint64_max.

(** [binary.BigEndian.PutUint64]: most significant byte first. *)
Definition putUint64 (v : Z) : list byte :=
  [ byte_of_Z (Z.shiftr v 56); byte_of_Z (Z.shiftr v 48);
    byte_of_Z (Z.shiftr v 40); byte_of_Z (Z.shiftr v 32);
    byte_of_Z (Z.shiftr v 24); byte_of_Z (Z.shiftr v 16);
    byte_of_Z (Z.shiftr v 8);  byte_of_Z v ].

(** [binary.BigEndian.Uint64], as a left-to-right accumulation
    [acc<<8 | b]. *)
Definition getUint (bs : list byte) : Z :=
  fold_left (fun acc b => Z.lor (Z.shiftl acc 8) (Z_of_byte b)) bs 0.

End Bytes.
(** ** Package lnwire: the element codec *)

Module Lnwire.
Import Bytes.

Inductive error : Type :=
| ErrUnexpectedEOF              (* the stream ended inside a field *)
| ErrSignatureTooLong (n : nat) (* declared or serialized length above the maximum *)
| ErrMalformedSignature         (* [btcec.ParseSignature] refused the bytes *).

(** A call that returns a value or panics. *)
Inductive result (A : Type) : Type :=
| Returns (a : A)
| Panics.
Arguments Returns {A} a.
Arguments Panics {A}.

(** [wire.ShaHash] is [[32]byte]; a value of the model is well formed when
    it has exactly [HashSize] bytes. *)
Definition HashSize : nat := 32.
Definition ShaHash : Type := list byte.
Definition wf_hash (h : ShaHash) : Prop := length h = HashSize.

(** [btcec.Signature] is a struct of two [*big.Int], [R] and [S]. Either
    may be nil, as both are in the zero struct [&btcec.Signature{}]. *)
Record Signature : Type := mkSignature {
  SigR : option Z;
  SigS : option Z
}.

(** Packages [btcec] and [wire] of btcd are not part of this repository.
    What this package calls of them is an interface here: the bytes
    [Serialize] returns for a signature whose components are both set,
    [btcec.ParseSignature], which gives the components or refuses the bytes,
    and the rendering [wire.ShaHash.String] of a hash. *)
Class Btcd : Type := {
  SerializeRS : Z -> Z -> list byte;
  ParseSignature : list byte -> option (Z * Z);
  ShaHashString : ShaHash -> string
}.

(** Reading through a pointer: nil panics. *)
Definition deref {A : Type} (p : option A) : result A :=
  match p with
  | Some a => Returns a
  | None => Panics
  end.

(** [sig.Serialize()] on a [*btcec.Signature]. The method reads [sig.R] and
    [sig.S]: on a nil receiver, or with a component that is nil, it
    panics. *)
Definition Serialize `{Btcd} (sig : option Signature) : result (list byte) :=
  match sig with
  | Some (mkSignature (Some r) (Some s)) => Returns (SerializeRS r s)
  | _ => Panics
  end.

(** The most bytes a serialized signature may have on the wire, its length
    byte not counted. *)
Definition MaxSigLen : nat := 73.

(** *** Writers: [io.Writer] over an in-memory buffer

    A writer step takes the bytes written so far and returns the buffer
    after the step together with how the step ended: without error, with an
    error, or in a panic. Bytes written before an error or a panic stay
    written. *)
Inductive wresult : Type :=
| WOk
| WErr (e : error)
| WPanic.

Definition writer : Type := list byte -> list byte * wresult.

Definition w_ok : writer := fun buf => (buf, WOk).
Definition w_bytes (bs : list byte) : writer := fun buf => (buf ++ bs, WOk).
Definition w_fail (e : error) : writer := fun buf => (buf, WErr e).
Definition w_panic : writer := fun buf => (buf, WPanic).
Definition w_seq (a b : writer) : writer :=
  fun buf => match a buf with
             | (buf', WOk) => b buf'
             | (buf', r) => (buf', r)
             end.

(** The values [writeElements] receives ([interface{}] arguments told apart
    by a type switch). The signature and the hash are pointers. *)
Inductive element : Type :=
| E_uint64 (v : Z)
| E_HTLCKey (v : Z)
| E_Signature (s : option Signature)
| E_ShaHash (h : option ShaHash).

(** Modelled from the spec: [writeElement] of [lnwire.go], the file of the
    element codec, whose code is not embedded here. Section 4.1 gives its
    contract: fixed-width integers are written in one fixed byte order
    (big-endian here), [HTLCKey] as a 64-bit integer, a hash as its 32
    bytes, a signature as a length-prefixed blob with a declared maximum:
    one length byte followed by the bytes [Serialize] returns, refused when
    there are more than the maximum. Sections 3 and 4.2 ask that encoding a
    message with a nil signature or hash write a defined empty encoding;
    the contract of the codec has no case for a nil pointer, and [Encode]
    hands its pointers on without a test. The signature is serialized and
    the hash is copied through the pointer given, whatever it is. *)
Definition writeElement `{Btcd} (e : element) : writer :=
  match e with
  | E_uint64 v => w_bytes (putUint64 v)
  | E_HTLCKey v => w_bytes (putUint64 v)
  | E_Signature p =>
      match Serialize p with
      | Panics => w_panic
      | Returns sig =>
          if decide (length sig <= MaxSigLen)%nat
          then w_seq (w_bytes [byte_of_Z (Z.of_nat (length sig))]) (w_bytes sig)
          else w_fail (ErrSignatureTooLong (length sig))
      end
  | E_ShaHash p =>
      match deref p with
      | Panics => w_panic
      | Returns h => w_bytes h
      end
  end.

(** Modelled from the spec: [writeElements] of [lnwire.go]: each element in
    order, the first error aborts the remaining ones. *)
Fixpoint writeElements `{Btcd} (es : list element) : writer :=
  match es with
  | [] => w_ok
  | e :: es' => w_seq (writeElement e) (writeElements es')
  end.

(** *** Readers: [io.Reader] over the bytes still to be read *)
Definition reader (A : Type) : Type := list byte -> error + (A * list byte).

Definition r_ret {A} (a : A) : reader A := fun r => inr (a, r).
Definition r_fail {A} (e : error) : reader A := fun _ => inl e.
Definition r_bind {A B} (m : reader A) (k : A -> reader B) : reader B :=
  fun r => match m r with
           | inl e => inl e
           | inr (a, r') => k a r'
           end.

Notation "x <~ m ;; k" := (r_bind m (fun x => k))
  (at level 100, m at next level, right associativity).

(** [io.ReadFull]: exactly [n] bytes or an error. *)
Definition r_full (n : nat) : reader (list byte) :=
  fun r => if decide (n <= length r)%nat
           then inr (take n r, drop n r)
           else inl ErrUnexpectedEOF.

(** Modelled from the spec: [readElement] of [lnwire.go] at [*uint64] and
    [*HTLCKey]: eight bytes, big-endian. *)
Definition readUint64 : reader Z :=
  bs <~ r_full 8 ;; r_ret (getUint bs).

(** Modelled from the spec: [readElement] at [**btcec.Signature]: the length
    byte, refused above the maximum before anything else is read, then that
    many bytes, which [btcec.ParseSignature] turns into the signature or
    refuses as malformed. Decoding never yields nil. *)
Definition readSignature `{Btcd} : reader (option Signature) :=
  l <~ r_full 1 ;;
  let n := Z.to_nat (getUint l) in
  if decide (n <= MaxSigLen)%nat
  then sig <~ r_full n ;;
       match ParseSignature sig with
       | Some (r, s) => r_ret (Some (mkSignature (Some r) (Some s)))
       | None => r_fail ErrMalformedSignature
       end
  else r_fail (ErrSignatureTooLong n).

(** Modelled from the spec: [readElement] at [**wire.ShaHash]: 32 bytes. *)
Definition readShaHash : reader (option ShaHash) :=
  h <~ r_full HashSize ;; r_ret (Some h).


(** *** The verbs of [fmt.Sprintf] the messages use *)

Definition nl : string := String (Ascii.ascii_of_nat 10) EmptyString.
Definition tab : string := String (Ascii.ascii_of_nat 9) EmptyString.

(** [%d] of an unsigned integer. *)
Definition fmt_d (v : Z) : string := pretty v.

Definition hex_digit (n : Z) : Ascii.ascii :=
  if n <? 10 then Ascii.ascii_of_N (Z.to_N (48 + n))
  else Ascii.ascii_of_N (Z.to_N (87 + n)).

(** [%x] of a byte slice: two lower-case digits a byte, nothing for nil. *)
Fixpoint fmt_x (bs : list byte) : string :=
  match bs with
  | [] => EmptyString
  | b :: bs' =>
      String (hex_digit (Z_of_byte b / 16))
        (String (hex_digit (Z_of_byte b mod 16)) (fmt_x bs'))
  end.

(** *** HTLCAddReject *)
Module HTLCAddReject.

Record t : Type := mk { ChannelID : Z; HTLCKey : Z }.

Definition wf (c : t) : Prop := is_uint64 (ChannelID c) /\ is_uint64 (HTLCKey c).

(** [Decode] fills the receiver through [readElements(r, &c.ChannelID,
    &c.HTLCKey)]: the result is the receiver after a decode that met no
    error, and the bytes left in the stream. [pver] is not looked at. *)
Definition Decode (pver : Z) : reader t :=
  cid <~ readUint64 ;;
  key <~ readUint64 ;;
  r_ret (mk cid key).

(** [Encode] is [writeElements(w, c.ChannelID, c.HTLCKey)]. *)
Definition Encode `{Btcd} (c : t) (pver : Z) : writer :=
  writeElements [E_uint64 (ChannelID c); E_HTLCKey (HTLCKey c)].

Definition MaxPayloadLength (c : t) (pver : Z) : Z := 16.

Definition Validate (c : t) : option error := None.

Definition String (c : t) : string :=
  (nl +:+ "--- Begin HTLCAddReject ---" +:+ nl) +:+
  ("ChannelID:" +:+ tab +:+ tab +:+ fmt_d (ChannelID c) +:+ nl) +:+
  ("HTLCKey:" +:+ tab +:+ tab +:+ fmt_d (HTLCKey c) +:+ nl) +:+
  ("--- End HTLCAddReject ---" +:+ nl).

End HTLCAddReject.

(** *** HTLCAddAccept *)
Module HTLCAddAccept.

Record t : Type := mk { ChannelID : Z; HTLCKey : Z }.

Definition wf (c : t) : Prop := is_uint64 (ChannelID c) /\ is_uint64 (HTLCKey c).

Definition Decode (pver : Z) : reader t :=
  cid <~ readUint64 ;;
  key <~ readUint64 ;;
  r_ret (mk cid key).

Definition Encode `{Btcd} (c : t) (pver : Z) : writer :=
  writeElements [E_uint64 (ChannelID c); E_HTLCKey (HTLCKey c)].

Definition MaxPayloadLength (c : t) (pver : Z) : Z := 16.

Definition Validate (c : t) : option error := None.

Definition String (c : t) : string :=
  (nl +:+ "--- Begin HTLCAddAccept ---" +:+ nl) +:+
  ("ChannelID:" +:+ tab +:+ tab +:+ fmt_d (ChannelID c) +:+ nl) +:+
  ("HTLCKey:" +:+ tab +:+ tab +:+ fmt_d (HTLCKey c) +:+ nl) +:+
  ("--- End HTLCAddAccept ---" +:+ nl).

End HTLCAddAccept.

(** *** CloseComplete *)
Module CloseComplete.

Record t : Type := mk {
  ReservationID : Z;
  ResponderCloseSig : option Signature;  (* nil or a pointer to a signature *)
  CloseShaHash : option ShaHash          (* nil or a pointer to a hash *)
}.

(** What the Go types guarantee of a value: a 64-bit identifier and, when
    the hash is set, 32 bytes of hash. *)
Definition wf (c : t) : Prop :=
  is_uint64 (ReservationID c) /\
  (forall h, CloseShaHash c = Some h -> wf_hash h).

(** [readElements(r, &c.ReservationID, &c.ResponderCloseSig,
    &c.CloseShaHash)] *)
Definition Decode `{Btcd} (pver : Z) : reader t :=
  rid <~ readUint64 ;;
  sig <~ readSignature ;;
  sha <~ readShaHash ;;
  r_ret (mk rid sig sha).

(** [writeElements(w, c.ReservationID, c.ResponderCloseSig,
    c.CloseShaHash)]: the two pointers are passed on as they are. *)
Definition Encode `{Btcd} (c : t) (pver : Z) : writer :=
  writeElements [E_uint64 (ReservationID c);
                 E_Signature (ResponderCloseSig c);
                 E_ShaHash (CloseShaHash c)].

Definition MaxPayloadLength (c : t) (pver : Z) : Z := 113.

Definition Validate (c : t) : option error := None.

(** The signature bytes [String] renders: [Serialize] is called only behind
    the guard [c.ResponderCloseSig != nil && c.ResponderCloseSig.R != nil]. *)
Definition serializedSig `{Btcd} (c : t) : result (list byte) :=
  match ResponderCloseSig c with
  | Some s =>
      match SigR s with
      | Some _ => Serialize (Some s)
      | None => Returns []
      end
  | None => Returns []
  end.

(** The hash string [String] renders, behind [c.CloseShaHash != nil]. *)
Definition shaString `{Btcd} (c : t) : string :=
  match CloseShaHash c with
  | Some h => ShaHashString h
  | None => EmptyString
  end.

Definition String `{Btcd} (c : t) : result string :=
  match serializedSig c with
  | Panics => Panics
  | Returns sig =>
      Returns
        ((nl +:+ "--- Begin CloseComplete ---" +:+ nl) +:+
         ("ReservationID:" +:+ tab +:+ tab +:+ fmt_d (ReservationID c) +:+ nl) +:+
         ("ResponderCloseSig:" +:+ tab +:+ fmt_x sig +:+ nl) +:+
         ("CloseShaHash:" +:+ tab +:+ tab +:+ shaString c +:+ nl) +:+
         ("--- End CloseComplete ---" +:+ nl))
  end.

End CloseComplete.

(** *** The [Message] interface over the three variants *)
Inductive Message : Type :=
| MsgHTLCAddReject (c : HTLCAddReject.t)
| MsgHTLCAddAccept (c : HTLCAddAccept.t)
| MsgCloseComplete (c : CloseComplete.t).

(** Which variant a decoder is asked for (the framing layer picks it from
    the command word). *)
Inductive variant : Type := HTLCAddRejectV | HTLCAddAcceptV | CloseCompleteV.

Definition variant_of (m : Message) : variant :=
  match m with
  | MsgHTLCAddReject _ => HTLCAddRejectV
  | MsgHTLCAddAccept _ => HTLCAddAcceptV
  | MsgCloseComplete _ => CloseCompleteV
  end.

Definition Encode `{Btcd} (m : Message) (pver : Z) : writer :=
  match m with
  | MsgHTLCAddReject c => HTLCAddReject.Encode c pver
  | MsgHTLCAddAccept c => HTLCAddAccept.Encode c pver
  | MsgCloseComplete c => CloseComplete.Encode c pver
  end.

Definition Decode `{Btcd} (v : variant) (pver : Z) : reader Message :=
  match v with
  | HTLCAddRejectV => c <~ HTLCAddReject.Decode pver ;; r_ret (MsgHTLCAddReject c)
  | HTLCAddAcceptV => c <~ HTLCAddAccept.Decode pver ;; r_ret (MsgHTLCAddAccept c)
  | CloseCompleteV => c <~ CloseComplete.Decode pver ;; r_ret (MsgCloseComplete c)
  end.

Definition MaxPayloadLength (m : Message) (pver : Z) : Z :=
  match m with
  | MsgHTLCAddReject c => HTLCAddReject.MaxPayloadLength c pver
  | MsgHTLCAddAccept c => HTLCAddAccept.MaxPayloadLength c pver
  | MsgCloseComplete c => CloseComplete.MaxPayloadLength c pver
  end.

(** What the Go types guarantee of a message's fields. *)
Definition wf (m : Message) : Prop :=
  match m with
  | MsgHTLCAddReject c => HTLCAddReject.wf c
  | MsgHTLCAddAccept c => HTLCAddAccept.wf c
  | MsgCloseComplete c => CloseComplete.wf c
  end.

(** A signature pointer that is not nil, whose signature has both components
    set, serializes to no more bytes than the codec admits and is given back
    by [btcec.ParseSignature] from its serialization. *)
Definition sig_round_trips `{Btcd} (p : option Signature) : Prop :=
  exists r s,
    p = Some (mkSignature (Some r) (Some s)) /\
    (length (SerializeRS r s) <= MaxSigLen)%nat /\
    ParseSignature (SerializeRS r s) = Some (r, s).

(** The optional fields of the message are set: such a signature, and a
    hash. *)
Definition fields_set `{Btcd} (m : Message) : Prop :=
  match m with
  | MsgCloseComplete c =>
      sig_round_trips (CloseComplete.ResponderCloseSig c) /\
      (exists h, CloseComplete.CloseShaHash c = Some h)
  | _ => True
  end.

(** The number of bytes [Serialize] returns for the signature of a message,
    when it returns. *)
Definition serialized_length `{Btcd} (m : Message) : option nat :=
  match m with
  | MsgCloseComplete c =>
      match Serialize (CloseComplete.ResponderCloseSig c) with
      | Returns sig => Some (length sig)
      | Panics => None
      end
  | _ => None
  end.

(** The bytes an [Encode] leaves in an empty buffer, and how it ended. *)
Definition written (w : writer) : list byte := fst (w []).
Definition write_result (w : writer) : wresult := snd (w []).

(** *** Stand-ins for btcd in examples

    Where an example needs signatures, it takes them from one of these. *)

(** The DER layout for components of one byte each, which is what [btcec]
    writes for components from 1 to 127, and its inverse. *)
Definition small_SerializeRS (r s : Z) : list byte :=
  [x30; x06; x02; x01; byte_of_Z r; x02; x01; byte_of_Z s].

Definition small_ParseSignature (bs : list byte) : option (Z * Z) :=
  match bs with
  | [a; b; c; d; r; e; f; s] =>
      if decide ([a; b; c; d; e; f] = [x30; x06; x02; x01; x02; x01])
      then Some (Z_of_byte r, Z_of_byte s)
      else None
  | _ => None
  end.

Definition btcd_small : Btcd :=
  {| SerializeRS := small_SerializeRS;
     ParseSignature := small_ParseSignature;
     ShaHashString := fun h => fmt_x (reverse h) |}.

(** A signature of 73 bytes, the most the codec admits: the DER layout of
    [R = 2^271] (35 bytes with the sign byte) and [S = 2^248] (32 bytes);
    and a stand-in that serializes every signature to it and parses it
    back. *)
Definition der73 : list byte :=
  [x30; x47; x02; x23] ++ (x00 :: x80 :: replicate 33 x00)
  ++ [x02; x20] ++ (x01 :: replicate 31 x00).

Definition btcd_long : Btcd :=
  {| SerializeRS := fun _ _ => der73;
     ParseSignature := fun bs => if decide (bs = der73)
                                 then Some (2 ^ 271, 2 ^ 248) else None;
     ShaHashString := fun h => fmt_x (reverse h) |}.

End Lnwire.

(** ** server.go: the connection manager *)

Module Server.

(** [atomic.AddInt32] wraps around in two's complement. *)
Definition wrap32 (z : Z) : Z := (z + 2 ^ 31) mod 2 ^ 32 - 2 ^ 31.

(** *** Collaborators, as far as the server looks into them *)

(** [lndc.LNAdr]: the fields the dial goroutine reads and the rendering its
    [String] method gives. *)
Record LNAdr : Type := mkLNAdr {
  PubKey : option (list byte);   (* [PubKey.SerializeCompressed()], nil if unknown *)
  Base58Addr : list byte;        (* [Base58Addr.ScriptAddress()] *)
  NetAddr : string;              (* [NetAddr.String()] *)
  LNAdr_String : string          (* [String()] *)
}.

(** [peer] (peer.go): its identifier and the address of the remote node. *)
Record peer : Type := mkPeer {
  peerID : Z;
  lightningAddr : LNAdr
}.

Inductive error : Type :=
| ErrAlreadyConnected (a : LNAdr)  (* "already connected to peer: %v" *)
| ErrExternal (msg : string)       (* an error a collaborator returned *).

(** [net.Listener]: what its [Close] returns. *)
Record listener : Type := mkListener {
  listenAddr : string;
  closeErr : option error
}.

(** [connectPeerMsg]; [reply] names the channel in the heap of channels. *)
Record connectPeerMsg : Type := mkConnectPeerMsg {
  addr : LNAdr;
  reply : nat
}.

(** The values sent on [queries chan interface{}]: a [*connectPeerMsg] or a
    value of any other dynamic type. *)
Inductive query : Type :=
| QConnectPeerMsg (msg : connectPeerMsg)
| QOther (dynamicType : string).

Inductive goroutine : Type :=
| GoListener (i : nat)          (* [go s.listener(l)], [l] the i-th listener *)
| GoPeerManager                 (* [go s.peerManager()] *)
| GoQueryHandler                (* [go s.queryHandler()] *)
| GoDial (msg : connectPeerMsg) (* the [go func() {...}()] of [queryHandler] *).

(** What the server does to the outside, in the order it does it. *)
Inductive event : Type :=
| EvGo (g : goroutine)
| EvListenerClose (i : nat)
| EvRpcServerStop
| EvWalletStop
| EvCloseQuit
| EvPeerStop (id : Z)
| EvDial (ipAddr : string) (remoteID : list byte)
| EvNewPeer (id : Z).

#[global] Instance LNAdr_eq_dec : EqDecision LNAdr.
Proof. solve_decision. Defined.
#[global] Instance peer_eq_dec : EqDecision peer.
Proof. solve_decision. Defined.
#[global] Instance error_eq_dec : EqDecision error.
Proof. solve_decision. Defined.
#[global] Instance connectPeerMsg_eq_dec : EqDecision connectPeerMsg.
Proof. solve_decision. Defined.
#[global] Instance goroutine_eq_dec : EqDecision goroutine.
Proof. solve_decision. Defined.
#[global] Instance event_eq_dec : EqDecision event.
Proof. solve_decision. Defined.

(** *** State *)

(** A [chan error] made by [make(chan error, cap)]. [waiting] counts the
    receive operations not yet served, [handed] lists what receivers have
    got, oldest first. *)
Record chan : Type := mkChan {
  cap : nat;
  buffered : list (option error);
  waiting : nat;
  handed : list (option error)
}.

(** The [server] struct. The wallet, the RPC server and the keys are
    collaborators that appear through the events above only. *)
Record server : Type := mkServer {
  started : Z;                      (* int32, atomic *)
  shutdown : Z;                     (* int32, atomic *)
  listeners : list listener;
  peers : gmap Z peer;              (* map[int32]*peer *)
  newPeers : list (option peer);    (* chan *peer, capacity 100 *)
  donePeers : list (option peer);   (* chan *peer, capacity 100 *)
  wg : Z;                           (* sync.WaitGroup counter *)
  quit : bool                       (* chan struct{}: has it been closed? *)
}.

Record world : Type := mkWorld {
  srv : server;
  chans : gmap nat chan;
  trace : list event
}.

Definition set_started (v : Z) (s : server) : server :=
  mkServer v (shutdown s) (listeners s) (peers s) (newPeers s) (donePeers s) (wg s) (quit s).
Definition set_shutdown (v : Z) (s : server) : server :=
  mkServer (started s) v (listeners s) (peers s) (newPeers s) (donePeers s) (wg s) (quit s).
Definition set_peers (v : gmap Z peer) (s : server) : server :=
  mkServer (started s) (shutdown s) (listeners s) v (newPeers s) (donePeers s) (wg s) (quit s).
Definition set_newPeers (v : list (option peer)) (s : server) : server :=
  mkServer (started s) (shutdown s) (listeners s) (peers s) v (donePeers s) (wg s) (quit s).
Definition set_donePeers (v : list (option peer)) (s : server) : server :=
  mkServer (started s) (shutdown s) (listeners s) (peers s) (newPeers s) v (wg s) (quit s).
Definition set_wg (v : Z) (s : server) : server :=
  mkServer (started s) (shutdown s) (listeners s) (peers s) (newPeers s) (donePeers s) v (quit s).
Definition set_quit (v : bool) (s : server) : server :=
  mkServer (started s) (shutdown s) (listeners s) (peers s) (newPeers s) (donePeers s) (wg s) v.

Definition with_srv (f : server -> server) (w : world) : world :=
  mkWorld (f (srv w)) (chans w) (trace w).
Definition with_chans (f : gmap nat chan -> gmap nat chan) (w : world) : world :=
  mkWorld (srv w) (f (chans w)) (trace w).
Definition with_trace (f : list event -> list event) (w : world) : world :=
  mkWorld (srv w) (chans w) (f (trace w)).

(** *** Goroutines

    A piece of Go code run by one goroutine: it changes the world and either
    finishes with a value, parks for ever on a channel operation nobody
    will complete, or panics. *)
Inductive outcome (A : Type) : Type :=
| Done (a : A)
| Parked
| Panic.
Arguments Done {A} a.
Arguments Parked {A}.
Arguments Panic {A}.

Definition M (A : Type) : Type := world -> outcome A * world.

#[global] Instance M_ret : MRet M := fun A a w => (Done a, w).
#[global] Instance M_bind : MBind M := fun A B k m w =>
  match m w with
  | (Done a, w') => k a w'
  | (Parked, w') => (Parked, w')
  | (Panic, w') => (Panic, w')
  end.

Definition get : M world := fun w => (Done w, w).
Definition modify (f : world -> world) : M unit := fun w => (Done tt, f w).
Definition park {A} : M A := fun w => (Parked, w).
Definition panic {A} : M A := fun w => (Panic, w).
Definition emit (e : event) : M unit := modify (with_trace (fun t => t ++ [e])).

(** [go f()]: the new goroutine is recorded; it runs on its own. *)
Definition go (g : goroutine) : M unit := emit (EvGo g).

(** [atomic.AddInt32(&s.started, 1)] and [atomic.AddInt32(&s.shutdown, 1)]:
    the new value is stored and returned. *)
Definition AddInt32_started : M Z :=
  w ← get;
  let n := wrap32 (started (srv w) + 1) in
  modify (with_srv (set_started n));; mret n.

Definition AddInt32_shutdown : M Z :=
  w ← get;
  let n := wrap32 (shutdown (srv w) + 1) in
  modify (with_srv (set_shutdown n));; mret n.

(** [s.wg.Add(n)] and [s.wg.Done()], as what they do to the counter. A
    [sync.WaitGroup] panics rather than let its counter go below zero; the
    workers below call [Done] on a counter [Start] has raised for them, and
    [ServerMore.wg_Done_checked] has the check. *)
Definition wg_Add (n : Z) : M unit :=
  modify (with_srv (fun s => set_wg (wg s + n) s)).

(** [ch <- v] on a reply channel: handed to a waiting receiver if there is
    one, else buffered if there is room, else the sender parks. A name that
    denotes no channel is a nil channel, on which a send parks too. *)
Definition chan_send (c : nat) (v : option error) : M unit :=
  w ← get;
  match chans w !! c with
  | None => park
  | Some ch =>
      if decide (0 < waiting ch)%nat
      then modify (with_chans
             <[c := mkChan (cap ch) (buffered ch) (pred (waiting ch)) (handed ch ++ [v])]>)
      else if decide (length (buffered ch) < cap ch)%nat
      then modify (with_chans
             <[c := mkChan (cap ch) (buffered ch ++ [v]) (waiting ch) (handed ch)]>)
      else park
  end.

(** [s.newPeers <- p]: the queue holds at most 100 peers; a sender finding it
    full parks until the mutator takes one out. *)
Definition newPeers_cap : nat := 100.

Definition newPeers_send (p : option peer) : M unit :=
  w ← get;
  if decide (length (newPeers (srv w)) < newPeers_cap)%nat
  then modify (with_srv (fun s => set_newPeers (newPeers s ++ [p]) s))
  else park.

Definition newPeers_recv : M (option peer) :=
  w ← get;
  match newPeers (srv w) with
  | [] => park
  | p :: q => modify (with_srv (set_newPeers q));; mret p
  end.

Definition donePeers_recv : M (option peer) :=
  w ← get;
  match donePeers (srv w) with
  | [] => park
  | p :: q => modify (with_srv (set_donePeers q));; mret p
  end.

(** [<-s.quit]: ready once the channel is closed. *)
Definition quit_recv : M unit :=
  w ← get; if quit (srv w) then mret tt else park.

(** [close(s.quit)]: closing a closed channel panics. *)
Definition close_quit : M unit :=
  w ← get;
  if quit (srv w) then panic
  else emit EvCloseQuit;; modify (with_srv (set_quit true)).

(** [for _, x := range xs { body }] *)
Fixpoint forM_ {A : Type} (xs : list A) (body : A -> M unit) : M unit :=
  match xs with
  | [] => mret tt
  | x :: xs' => body x;; forM_ xs' body
  end.

(** Code of another goroutine run to where it finishes or parks; the
    goroutine running [aside m] goes on either way. *)
Definition aside {A : Type} (m : M A) : M (outcome A) :=
  fun w => let (r, w') := m w in (Done r, w').

(** *** The server *)

(** [newServer], past the two points where it can return an error. *)
Definition newServer (ls : list listener) : world :=
  mkWorld (mkServer 0 0 ls ∅ [] [] 0 false) ∅ [].

Definition addPeer (p : option peer) : M unit :=
  match p with
  | None => mret tt
  | Some p =>
      w ← get;
      (* Ignore new peers if we're shutting down. *)
      if decide (shutdown (srv w) ≠ 0)
      then emit (EvPeerStop (peerID p))
      else modify (with_srv (fun s => set_peers (<[peerID p := p]> (peers s)) s))
  end.

Definition removePeer (p : option peer) : M unit := mret tt.

Inductive ctl : Type := Continue | Break.

(** The case a [select] of [peerManager] takes. *)
Inductive pm_case : Type := PmNewPeer | PmDonePeer | PmQuit.

(** One turn of the loop of [peerManager], on the case [select] took. A case
    whose channel has nothing to receive is not taken: the turn parks. *)
Definition peerManager_turn (c : pm_case) : M ctl :=
  match c with
  | PmNewPeer => p ← newPeers_recv; addPeer p;; mret Continue
  | PmDonePeer => p ← donePeers_recv; removePeer p;; mret Continue
  | PmQuit => quit_recv;; mret Break
  end.

(** [peerManager] along the cases its [select] takes, one a turn; with no
    case left to take the worker is waiting in [select]. *)
Fixpoint peerManager (sched : list pm_case) : M unit :=
  match sched with
  | [] => park
  | c :: sched' =>
      r ← peerManager_turn c;
      match r with
      | Continue => peerManager sched'
      | Break => wg_Add (-1)
      end
  end.

(** [iter] is an order in which [range s.peers] may visit the map. *)
Definition range_of (m : gmap Z peer) (iter : list peer) : Prop :=
  iter ≡ₚ (map_to_list m).*2.

(** The scan of [queryHandler] for a peer we are already connected to. *)
Fixpoint dupScan (msg : connectPeerMsg) (iter : list peer) : M unit :=
  match iter with
  | [] => mret tt
  | p :: iter' =>
      (if decide (LNAdr_String (lightningAddr p) = LNAdr_String (addr msg))
       then chan_send (reply msg) (Some (ErrAlreadyConnected (lightningAddr p)))
       else mret tt);;
      dupScan msg iter'
  end.

(** The case a [select] of [queryHandler] takes. *)
Inductive qh_case : Type := QhQuery (q : query) | QhQuit.

(** One turn of the loop of [queryHandler]; [iter] is the order in which
    the turn ranges over the peers. *)
Definition queryHandler_turn (c : qh_case) (iter : list peer) : M ctl :=
  match c with
  | QhQuery (QConnectPeerMsg msg) =>
      dupScan msg iter;;
      go (GoDial msg);;
      mret Continue
  | QhQuery (QOther _) => mret Continue
  | QhQuit => quit_recv;; mret Break
  end.

(** [queryHandler] along the cases its [select] takes, each with the order
    in which that turn ranges over the peers. *)
Fixpoint queryHandler (sched : list (qh_case * list peer)) : M unit :=
  match sched with
  | [] => park
  | (c, iter) :: sched' =>
      r ← queryHandler_turn c iter;
      match r with
      | Continue => queryHandler sched'
      | Break => wg_Add (-1)
      end
  end.

(** The goroutine [queryHandler] launches for a connect request. What the
    collaborators give back is an argument: [dialErr] is the result of
    [conn.Dial], [newp] the peer [newPeer(conn, s)] builds. *)
Definition dial (msg : connectPeerMsg) (dialErr : option error) (newp : peer) : M unit :=
  let remoteID :=
    match PubKey (addr msg) with
    | None => Base58Addr (addr msg)
    | Some key => key
    end in
  let ipAddr := NetAddr (addr msg) in
  emit (EvDial ipAddr remoteID);;
  (match dialErr with
   | Some err => chan_send (reply msg) (Some err)
   | None => mret tt
   end);;
  (* Now that we've established a connection, create a peer *)
  emit (EvNewPeer (peerID newp));;
  newPeers_send (Some newp);;
  chan_send (reply msg) None.

(** [make(chan error, 1)] in [ConnectToPeer]. Nobody but the caller ever
    receives on the channel, and the caller does so once, right after
    handing the query over: that receive is entered as waiting from the
    start. *)
Definition fresh_chan : chan := mkChan 1 [] 1 [].

Definition make_reply : M nat :=
  w ← get;
  let c := fresh (dom (chans w)) in
  modify (with_chans <[c := fresh_chan]>);;
  mret c.

(** [return <-reply]: what the one receive got, if anything arrived. *)
Definition reply_recv (c : nat) : M (option error) :=
  w ← get;
  match chans w !! c with
  | Some ch => match handed ch with
               | v :: _ => mret v
               | [] => park
               end
  | None => park
  end.

(** [ConnectToPeer], together with the turn of [queryHandler] that takes
    its query off the unbuffered [queries] channel and the dial goroutine
    that turn launches, if it gets that far: a request that is served. The
    send [s.queries <- msg] completes only while [queryHandler] is receiving;
    [ServerMore.ConnectToPeer_served] has that send. *)
Definition ConnectToPeer (a : LNAdr) (iter : list peer)
    (dialErr : option error) (newp : peer) : M (option error) :=
  c ← make_reply;
  let msg := mkConnectPeerMsg a c in
  r ← aside (queryHandler_turn (QhQuery (QConnectPeerMsg msg)) iter);
  (match r with
   | Done _ => aside (dial msg dialErr newp);; mret tt
   | _ => mret tt
   end);;
  reply_recv c.

Definition AddPeer (p : option peer) : M unit := newPeers_send p.

Definition Start : M unit :=
  (* Already running? *)
  n ← AddInt32_started;
  if decide (n ≠ 1) then mret tt
  else
    w ← get;
    forM_ (seq 0 (length (listeners (srv w))))
          (fun i => wg_Add 1;; go (GoListener i));;
    wg_Add 2;;
    go GoPeerManager;;
    go GoQueryHandler.

Fixpoint closeListeners (i : nat) (ls : list listener) : M (option error) :=
  match ls with
  | [] => mret None
  | l :: ls' =>
      emit (EvListenerClose i);;
      match closeErr l with
      | Some err => mret (Some err)
      | None => closeListeners (S i) ls'
      end
  end.

Definition Stop : M (option error) :=
  (* Bail if we're already shutting down. *)
  n ← AddInt32_shutdown;
  if decide (n ≠ 1) then mret None
  else
    w ← get;
    r ← closeListeners 0 (listeners (srv w));
    match r with
    | Some err => mret (Some err)
    | None =>
        emit EvRpcServerStop;;
        emit EvWalletStop;;
        (* Signal all the lingering goroutines to quit. *)
        close_quit;;
        mret None
    end.

(** [Stop] closes the listeners in order up to and including the first
    whose [Close] fails: how many that is, and the error it stops at. *)
Fixpoint closes_made (ls : list listener) : nat :=
  match ls with
  | [] => 0
  | l :: ls' => S (match closeErr l with
                   | Some _ => 0
                   | None => closes_made ls'
                   end)
  end.

Fixpoint first_close_error (ls : list listener) : option error :=
  match ls with
  | [] => None
  | l :: ls' => match closeErr l with
                | Some err => Some err
                | None => first_close_error ls'
                end
  end.

Definition is_int32 (z : Z) : Prop := - 2 ^ 31 <= z < 2 ^ 31.

(** The peers of [iter] whose address renders like [a]. *)
Definition matching (a : LNAdr) (iter : list peer) : list peer :=
  filter (fun p => LNAdr_String (lightningAddr p) = LNAdr_String a) iter.

(** [m] called [n] times in a row. *)
Fixpoint repeatM (n : nat) (m : M unit) : M unit :=
  match n with
  | O => mret tt
  | S n' => m;; repeatM n' m
  end.

(** The identifier the dial goroutine hands to the handshake. *)
Definition remoteID_of (a : LNAdr) : list byte :=
  match PubKey a with
  | None => Base58Addr a
  | Some key => key
  end.

(** [w'] comes after [w]: the trace has grown at its end, every channel is
    still there, and what its receivers had got they still have, in front of
    anything they got since. *)
Definition extends (w w' : world) : Prop :=
  trace w `prefix_of` trace w' /\
  forall c ch, chans w !! c = Some ch ->
    exists ch', chans w' !! c = Some ch' /\ handed ch `prefix_of` handed ch'.

(** How often an event occurs in a trace. *)
Definition occurrences (e : event) (t : list event) : nat :=
  length (filter (fun x => x = e) t).

(** The values that got onto a reply channel: those a receiver took and
    those still in the buffer. *)
Definition delivered (c : nat) (w : world) : list (option error) :=
  match chans w !! c with
  | Some ch => handed ch ++ buffered ch
  | None => []
  end.

End Server.

(** ** server.go: more of the connection manager *)

Module ServerMore.
Import Server.

(** *** Footprints

    [m] writes, of the [server] struct, at most the fields that [erase]
    overwrites: with those fields erased, the struct after [m] is the struct
    before it, however [m] ends. *)
Definition touches_only {A : Type} (erase : server -> server) (m : M A) : Prop :=
  forall w, erase (srv (snd (m w))) = erase (srv w).

Definition no_field (s : server) : server := s.
Definition only_newPeers (s : server) : server := set_newPeers [] s.
Definition only_donePeers (s : server) : server := set_donePeers [] s.
Definition only_newPeers_peers (s : server) : server :=
  set_newPeers [] (set_peers ∅ s).
Definition only_started_wg (s : server) : server := set_started 0 (set_wg 0 s).
Definition only_shutdown_quit (s : server) : server :=
  set_shutdown 0 (set_quit false s).
Definition only_wg (s : server) : server := set_wg 0 s.

(** *** The new-peer queue, drained *)

(** The peers of a queue, nil pointers left out. *)
Definition non_nil (q : list (option peer)) : list peer := omap id q.

(** [s.peers[p.peerID] = p] for each peer in turn. *)
Definition register (m : gmap Z peer) (ps : list peer) : gmap Z peer :=
  foldl (fun m p => <[peerID p := p]> m) m ps.

(** [s.Stop()] as a statement: the error it returns is dropped. *)
Definition Stop_ : M unit := Stop ≫= fun _ => mret tt.

(** The events [Start] makes when it launches the workers. *)
Definition launches (ls : list listener) : list event :=
  ((fun i => EvGo (GoListener i)) <$> seq 0 (length ls))
  ++ [EvGo GoPeerManager; EvGo GoQueryHandler].

(** *** The accept loop, [listener]

    What a call of [l.Accept()] gives back: an error, or a connection, from
    which [newPeer(conn, s)] builds the peer given here. *)
Inductive accept_result : Type :=
| AcceptErr (err : error)
| AcceptConn (p : peer).

(** What the accept loop does to the outside; these events are kept in a
    list of their own, next to the world. *)
Inductive accept_event : Type :=
| AePrintln (err : error)   (* [fmt.Println("err: ", err)] *)
| AeNewPeer (id : Z)        (* [newPeer(conn, s)] *)
| AePeerStart (id : Z)      (* [peer.Start()] *).

Record lworld : Type := mkLworld {
  lw : world;
  lout : list accept_event
}.

(** The body of the loop once [Accept] has returned. *)
Definition accepted (r : accept_result) (x : lworld) : lworld :=
  match r with
  | AcceptErr err => mkLworld (lw x) (lout x ++ [AePrintln err])
  | AcceptConn p =>
      mkLworld (lw x) (lout x ++ [AeNewPeer (peerID p); AePeerStart (peerID p)])
  end.

(** [s.wg.Done()] *)
Definition wg_Done (x : lworld) : lworld :=
  mkLworld (with_srv (fun s => set_wg (wg s - 1) s) (lw x)) (lout x).

(** The method [listener] of the server (the name [listener] is taken by the
    type of the listeners), from the test of its loop on. [accepts] are the
    results of the calls of [Accept] to come; when none is left the goroutine
    is blocked in [Accept]. *)
Fixpoint listener_loop (accepts : list accept_result) (x : lworld)
    : outcome unit * lworld :=
  if decide (shutdown (srv (lw x)) = 0)
  then match accepts with
       | [] => (Parked, x)
       | r :: accepts' => listener_loop accepts' (accepted r x)
       end
  else (Done tt, wg_Done x).

(** [s.wg.Done()] with the check a [sync.WaitGroup] makes: it panics rather
    than count below zero. *)
Definition wg_Done_checked (x : lworld) : outcome unit * lworld :=
  if decide (0 < wg (srv (lw x))) then (Done tt, wg_Done x) else (Panic, x).

(** The accept loop with that check: [defer s.wg.Done()] runs when the loop
    returns. *)
Fixpoint listener_loop_checked (accepts : list accept_result) (x : lworld)
    : outcome unit * lworld :=
  if decide (shutdown (srv (lw x)) = 0)
  then match accepts with
       | [] => (Parked, x)
       | r :: accepts' => listener_loop_checked accepts' (accepted r x)
       end
  else wg_Done_checked x.

Definition accept_events (r : accept_result) : list accept_event :=
  match r with
  | AcceptErr err => [AePrintln err]
  | AcceptConn p => [AeNewPeer (peerID p); AePeerStart (peerID p)]
  end.

(** The accept loops blocked in [Accept], each woken by an error from
    [Accept] (as closing the listener gives), one after the other; a loop
    that does not return holds up the ones after it. *)
Fixpoint listeners_woken (errs : list error) (x : lworld) : outcome unit * lworld :=
  match errs with
  | [] => (Done tt, x)
  | err :: errs' =>
      match listener_loop [] (accepted (AcceptErr err) x) with
      | (Done _, x') => listeners_woken errs' x'
      | (r, x') => (r, x')
      end
  end.

(** *** [ConnectToPeer] and the query processor at the other end

    [s.queries] is unbuffered: the send [s.queries <- msg] in [ConnectToPeer]
    completes only while [queryHandler] stands at its [select]. It does so
    from the call of [Start] that launches it until it returns on [quit] or
    parks in a scan; before, and after, the send finds no receiver. *)
Inductive qh_state : Type :=
| QhReceiving   (* at its [select], ready to receive on [s.queries] *)
| QhAway        (* not launched, returned, or parked in a scan *).

Record sworld : Type := mkSworld {
  sw : world;
  qh : qh_state
}.

(** [Start], which launches [queryHandler] when it launches the workers. *)
Definition Start_served (x : sworld) : outcome unit * sworld :=
  let launching := bool_decide (wrap32 (started (srv (sw x)) + 1) = 1) in
  let (r, w') := Start (sw x) in
  (r, mkSworld w' (if launching then QhReceiving else qh x)).

(** [ConnectToPeer] with the send on [s.queries]: it parks there when the
    query processor is away. Otherwise the request is served as in
    [Server.ConnectToPeer]; the query processor is back at its [select] when
    its turn has got through the scan and launched the dial goroutine, and
    is away for good when the turn has parked. *)
Definition ConnectToPeer_served (a : LNAdr) (iter : list peer)
    (dialErr : option error) (newp : peer) (x : sworld)
    : outcome (option error) * sworld :=
  match qh x with
  | QhAway => (Parked, x)
  | QhReceiving =>
      let c := fresh (dom (chans (sw x))) in
      let msg := mkConnectPeerMsg a c in
      let turn := fst (queryHandler_turn (QhQuery (QConnectPeerMsg msg)) iter
                         (with_chans <[c := fresh_chan]> (sw x))) in
      let (r, w') := ConnectToPeer a iter dialErr newp (sw x) in
      (r, mkSworld w' (match turn with
                       | Done _ => QhReceiving
                       | _ => QhAway
                       end))
  end.

(** A server just built and started: the first world in which a connect
    request is served. *)
Definition started_server (ls : list listener) : sworld :=
  snd (Start_served (mkSworld (newServer ls) QhAway)).

(** The same server with peers in its map. *)
Definition with_peers (m : gmap Z peer) (x : sworld) : sworld :=
  mkSworld (with_srv (set_peers m) (sw x)) (qh x).

(** *** [getIdentityPrivKey] and [newServer], with the points where they fail *)

(** A [waddrmgr.ManagedAddress] as the wallet's address manager gives it: a
    public-key address, with its compressed key and with what its [PrivKey()]
    gives back, or an address of another kind. *)
Inductive managedAddress : Type :=
| ManagedPubKeyAddress (pubKey : list byte) (privKey : error + list byte)
| ManagedOtherAddress.

(** The wallet as [getIdentityPrivKey] uses it. *)
Record wallet : Type := mkWallet {
  GetIDAdr : error + string;                    (* [l.ChannelDB.GetIDAdr()], rendered *)
  Address : string -> error + managedAddress    (* [l.Manager.Address(adr)] *)
}.

(** [getIdentityPrivKey]: the key or the error it returns, and the lines it
    prints. The type assertion [adr2.(waddrmgr.ManagedPubKeyAddress)] has no
    second result: on an address of another kind it panics. *)
Definition getIdentityPrivKey (l : wallet)
    : outcome (error + list byte) * list string :=
  match GetIDAdr l with
  | inl err => (Done (inl err), [])
  | inr adr =>
      let out1 := ["got ID address: " +:+ adr +:+ Lnwire.nl] in
      match Address l adr with
      | inl err => (Done (inl err), out1)
      | inr ManagedOtherAddress => (Panic, out1)
      | inr (ManagedPubKeyAddress pubKey privKey) =>
          let out2 := out1 ++ ["pubkey: %v " +:+ Lnwire.fmt_x pubKey +:+ Lnwire.nl] in
          match privKey with
          | inl err => (Done (inl err), out2)
          | inr priv => (Done (inr priv), out2)
          end
      end
  end.

(** The loop of [newServer] over [listenAddrs]: the listeners opened, in
    order, and the error of the first [lndc.NewListener] that fails. *)
Fixpoint openListeners (NewListener : string -> error + listener)
    (listenAddrs : list string) : list listener * option error :=
  match listenAddrs with
  | [] => ([], None)
  | a :: listenAddrs' =>
      match NewListener a with
      | inl err => ([], Some err)
      | inr ln =>
          let (lns, r) := openListeners NewListener listenAddrs' in
          (ln :: lns, r)
      end
  end.

(** [newServer] from its arguments: the server, or the error it returns, and
    the listeners it has opened on the way. [NewListener privKey addr] stands
    for [lndc.NewListener(privKey, addr)]. *)
Definition newServerFrom (l : wallet)
    (NewListener : list byte -> string -> error + listener)
    (listenAddrs : list string) : outcome (error + world) * list listener :=
  match fst (getIdentityPrivKey l) with
  | Done (inl err) => (Done (inl err), [])
  | Done (inr privKey) =>
      match openListeners (NewListener privKey) listenAddrs with
      | (lns, Some err) => (Done (inl err), lns)
      | (lns, None) => (Done (inr (newServer lns)), lns)
      end
  | Parked => (Parked, [])
  | Panic => (Panic, [])
  end.

End ServerMore.

(** * Facts *)

(** ** Bytes and fixed-width integers *)

Module BytesFacts.
Import Bytes.

Lemma Z_of_byte_range b : 0 <= Z_of_byte b < 256.
Proof.
  unfold Z_of_byte. pose proof (Byte.to_N_bounded b) as Hb.
  split; [apply N2Z.is_nonneg|]. lia.
Qed.

Lemma Z_of_byte_of_Z z : Z_of_byte (byte_of_Z z) = z mod 256.
Proof.
  unfold Z_of_byte, byte_of_Z.
  assert (Hr : 0 <= z mod 256 < 256) by (apply Z.mod_pos_bound; lia).
  destruct (Byte.of_N (Z.to_N (z mod 256))) as [b|] eqn:E.
  - apply Byte.to_of_N in E. cbn [default from_option id]. rewrite E. lia.
  - exfalso. apply Byte.of_N_None_iff in E. lia.
Qed.

Lemma byte_of_Z_of_byte b : byte_of_Z (Z_of_byte b) = b.
Proof.
  unfold byte_of_Z. rewrite Z.mod_small by apply Z_of_byte_range.
  unfold Z_of_byte. rewrite N2Z.id, Byte.of_to_N. reflexivity.
Qed.

(** [acc<<8 | b] adds: the low eight bits of [acc<<8] are clear. *)
Lemma lor_shiftl_byte acc b :
  0 <= acc -> 0 <= b < 256 -> Z.lor (Z.shiftl acc 8) b = acc * 256 + b.
Proof.
  intros Ha Hb.
  assert (Hland : Z.land (Z.shiftl acc 8) b = 0).
  { apply Z.bits_inj'. intros n Hn.
    rewrite Z.land_spec, Z.bits_0.
    destruct (Z.ltb_spec n 8).
    - rewrite Z.shiftl_spec_low by lia. reflexivity.
    - assert (Z.testbit b n = false) as ->; [|apply andb_false_r].
      destruct (Z.eq_dec b 0) as [->|Hnz]; [apply Z.bits_0|].
      apply Z.bits_above_log2; [lia|].
      assert (Z.log2 b < 8); [|lia].
      apply Z.log2_lt_pow2; lia. }
  rewrite <- Z.lxor_lor by exact Hland.
  rewrite <- Z.add_nocarry_lxor by exact Hland.
  rewrite Z.shiftl_mul_pow2 by lia. reflexivity.
Qed.

Lemma div_pow2_step v n m :
  0 <= n -> m = n + 8 ->
  (v / 2 ^ m) * 256 + (v / 2 ^ n) mod 256 = v / 2 ^ n.
Proof.
  intros Hn ->. rewrite Z.pow_add_r by lia.
  rewrite <- Z.div_div by lia.
  change (2 ^ 8) with 256.
  generalize (v / 2 ^ n). intros x.
  pose proof (Z.div_mod x 256 ltac:(lia)). lia.
Qed.

Lemma getUint_putUint64 v : is_uint64 v -> getUint (putUint64 v) = v.
Proof.
  unfold is_uint64, uint64_max. intros Hv.
  unfold putUint64, getUint. cbn [fold_left].
  rewrite !Z_of_byte_of_Z, !Z.shiftr_div_pow2 by lia.
  rewrite Z.shiftl_0_l, Z.lor_0_l.
  assert (H56 : (v / 2 ^ 56) mod 256 = v / 2 ^ 56).
  { apply Z.mod_small. split; [apply Z.div_pos; lia|].
    apply Z.div_lt_upper_bound; lia. }
  rewrite H56.
  assert (Hpos : forall n, 0 <= v / 2 ^ n).
  { intros n. apply Z_div_nonneg_nonneg; [lia|apply Z.pow_nonneg; lia]. }
  assert (Hb : forall x, 0 <= x mod 256 < 256)
    by (intros; apply Z.mod_pos_bound; lia).
  rewrite (lor_shiftl_byte (v / 2 ^ 56)), (div_pow2_step v 48 56) by (auto; lia).
  rewrite (lor_shiftl_byte (v / 2 ^ 48)), (div_pow2_step v 40 48) by (auto; lia).
  rewrite (lor_shiftl_byte (v / 2 ^ 40)), (div_pow2_step v 32 40) by (auto; lia).
  rewrite (lor_shiftl_byte (v / 2 ^ 32)), (div_pow2_step v 24 32) by (auto; lia).
  rewrite (lor_shiftl_byte (v / 2 ^ 24)), (div_pow2_step v 16 24) by (auto; lia).
  rewrite (lor_shiftl_byte (v / 2 ^ 16)), (div_pow2_step v 8 16) by (auto; lia).
  rewrite (lor_shiftl_byte (v / 2 ^ 8)) by (auto; lia).
  pose proof (div_pow2_step v 0 8) as H0.
  change (2 ^ 0) with 1 in H0. rewrite Z.div_1_r in H0.
  apply H0; lia.
Qed.

Lemma length_putUint64 v : length (putUint64 v) = 8%nat.
Proof. reflexivity. Qed.

End BytesFacts.
(** ** The wire messages *)

Module LnwireFacts.
Import Bytes BytesFacts Lnwire.

Lemma r_full_app (bs rest : list byte) (n : nat) :
  length bs = n -> r_full n (bs ++ rest) = inr (bs, rest).
Proof.
  intros <-. unfold r_full.
  rewrite decide_True by (rewrite length_app; lia).
  by rewrite take_app_length, drop_app_length.
Qed.

Lemma readUint64_putUint64 (v : Z) (rest : list byte) :
  is_uint64 v -> readUint64 (putUint64 v ++ rest) = inr (v, rest).
Proof.
  intros Hv. unfold readUint64, r_bind.
  rewrite r_full_app by apply length_putUint64.
  unfold r_ret. by rewrite getUint_putUint64.
Qed.

Lemma getUint_single (b : byte) : getUint [b] = Z_of_byte b.
Proof. unfold getUint. cbn [fold_left]. by rewrite Z.shiftl_0_l, Z.lor_0_l. Qed.

Section WithBtcd.
Context {B : Btcd}.

Lemma readSignature_written (r s : Z) (rest : list byte) :
  (length (SerializeRS r s) <= MaxSigLen)%nat ->
  ParseSignature (SerializeRS r s) = Some (r, s) ->
  readSignature (byte_of_Z (Z.of_nat (length (SerializeRS r s)))
                   :: SerializeRS r s ++ rest)
  = inr (Some (mkSignature (Some r) (Some s)), rest).
Proof.
  intros Hlen Hparse. unfold MaxSigLen in Hlen. unfold readSignature, r_bind.
  change (byte_of_Z (Z.of_nat (length (SerializeRS r s))) :: SerializeRS r s ++ rest)
    with ([byte_of_Z (Z.of_nat (length (SerializeRS r s)))] ++ (SerializeRS r s ++ rest)).
  rewrite r_full_app by reflexivity.
  rewrite getUint_single, Z_of_byte_of_Z, Z.mod_small by lia.
  rewrite Nat2Z.id, decide_True by (unfold MaxSigLen; lia).
  rewrite r_full_app by reflexivity.
  by rewrite Hparse.
Qed.

Lemma readShaHash_written (h rest : list byte) :
  wf_hash h -> readShaHash (h ++ rest) = inr (Some h, rest).
Proof.
  intros Hh. unfold readShaHash, r_bind. by rewrite r_full_app.
Qed.

(** What the decoders yield is never nil. *)
Lemma readSignature_not_nil (bs rest : list byte) (p : option Signature) :
  readSignature bs = inr (p, rest) ->
  exists r s, p = Some (mkSignature (Some r) (Some s)).
Proof.
  unfold readSignature, r_bind, r_ret, r_fail.
  destruct (r_full 1 bs) as [e|[l r1]]; [done|].
  destruct (decide _); [|done].
  destruct (r_full _ r1) as [e|[sig r2]]; [done|].
  destruct (ParseSignature sig) as [[r s]|]; [|done].
  intros [= <- _]. eauto.
Qed.

Lemma readShaHash_not_nil (bs rest : list byte) (p : option ShaHash) :
  readShaHash bs = inr (p, rest) -> exists h, p = Some h.
Proof.
  unfold readShaHash, r_bind, r_ret.
  destruct (r_full HashSize bs) as [e|[h r1]]; [done|].
  intros [= <- _]. eauto.
Qed.

Lemma CloseComplete_Decode_not_nil
    (pver : Z) (bs rest : list byte) (c : CloseComplete.t) :
  CloseComplete.Decode pver bs = inr (c, rest) ->
  (exists r s, CloseComplete.ResponderCloseSig c = Some (mkSignature (Some r) (Some s))) /\
  (exists h, CloseComplete.CloseShaHash c = Some h).
Proof.
  unfold CloseComplete.Decode, r_bind at 1.
  destruct (readUint64 bs) as [e|[rid r1]]; [done|].
  unfold r_bind at 1.
  destruct (readSignature r1) as [e|[sig r2]] eqn:Hsig; [done|].
  unfold r_bind at 1.
  destruct (readShaHash r2) as [e|[sha r3]] eqn:Hsha; [done|].
  unfold r_ret. intros [= <- _]. cbn.
  split; [by eapply readSignature_not_nil|by eapply readShaHash_not_nil].
Qed.

(** What [Encode] writes, variant by variant. *)
Lemma HTLCAddReject_Encode_bytes (c : HTLCAddReject.t) (pver : Z) (buf : list byte) :
  HTLCAddReject.Encode c pver buf
  = (buf ++ putUint64 (HTLCAddReject.ChannelID c)
         ++ putUint64 (HTLCAddReject.HTLCKey c), WOk).
Proof.
  unfold HTLCAddReject.Encode, writeElements, writeElement, w_seq, w_bytes, w_ok.
  by rewrite <- app_assoc.
Qed.

Lemma HTLCAddAccept_Encode_bytes (c : HTLCAddAccept.t) (pver : Z) (buf : list byte) :
  HTLCAddAccept.Encode c pver buf
  = (buf ++ putUint64 (HTLCAddAccept.ChannelID c)
         ++ putUint64 (HTLCAddAccept.HTLCKey c), WOk).
Proof.
  unfold HTLCAddAccept.Encode, writeElements, writeElement, w_seq, w_bytes, w_ok.
  by rewrite <- app_assoc.
Qed.

(** [CloseComplete.Encode], by what [Serialize] does with the signature
    pointer and by the hash pointer. *)
Lemma CloseComplete_Encode_bytes (c : CloseComplete.t) (pver : Z) (buf : list byte) :
  CloseComplete.Encode c pver buf
  = let id := putUint64 (CloseComplete.ReservationID c) in
    match Serialize (CloseComplete.ResponderCloseSig c) with
    | Panics => (buf ++ id, WPanic)
    | Returns sig =>
        if decide (length sig <= MaxSigLen)%nat
        then let field := byte_of_Z (Z.of_nat (length sig)) :: sig in
             match CloseComplete.CloseShaHash c with
             | Some h => (buf ++ id ++ field ++ h, WOk)
             | None => (buf ++ id ++ field, WPanic)
             end
        else (buf ++ id, WErr (ErrSignatureTooLong (length sig)))
    end.
Proof.
  destruct c as [rid sig sha].
  unfold CloseComplete.Encode, writeElements, writeElement.
  cbn [CloseComplete.ReservationID CloseComplete.ResponderCloseSig
       CloseComplete.CloseShaHash].
  cbv zeta.
  destruct (Serialize sig) as [bs|]; [|reflexivity].
  destruct (decide _); [|reflexivity].
  destruct sha as [h|]; unfold w_seq, w_bytes, w_panic, w_ok, deref;
    rewrite <- ?app_assoc; reflexivity.
Qed.

(** *** Round trip *)

Lemma HTLCAddReject_round_trip (c : HTLCAddReject.t) (pver : Z) (rest : list byte) :
  HTLCAddReject.wf c ->
  HTLCAddReject.Decode pver (written (HTLCAddReject.Encode c pver) ++ rest)
  = inr (c, rest).
Proof.
  intros [Hc Hk]. unfold written. rewrite HTLCAddReject_Encode_bytes.
  cbn [fst app]. rewrite <- app_assoc.
  unfold HTLCAddReject.Decode, r_bind.
  rewrite readUint64_putUint64 by done.
  rewrite readUint64_putUint64 by done.
  by destruct c.
Qed.

Lemma HTLCAddAccept_round_trip (c : HTLCAddAccept.t) (pver : Z) (rest : list byte) :
  HTLCAddAccept.wf c ->
  HTLCAddAccept.Decode pver (written (HTLCAddAccept.Encode c pver) ++ rest)
  = inr (c, rest).
Proof.
  intros [Hc Hk]. unfold written. rewrite HTLCAddAccept_Encode_bytes.
  cbn [fst app]. rewrite <- app_assoc.
  unfold HTLCAddAccept.Decode, r_bind.
  rewrite readUint64_putUint64 by done.
  rewrite readUint64_putUint64 by done.
  by destruct c.
Qed.

Lemma CloseComplete_round_trip
    (rid r s : Z) (h : ShaHash) (pver : Z) (rest : list byte) :
  is_uint64 rid ->
  (length (SerializeRS r s) <= MaxSigLen)%nat ->
  ParseSignature (SerializeRS r s) = Some (r, s) ->
  wf_hash h ->
  let c := CloseComplete.mk rid (Some (mkSignature (Some r) (Some s))) (Some h) in
  write_result (CloseComplete.Encode c pver) = WOk /\
  CloseComplete.Decode pver (written (CloseComplete.Encode c pver) ++ rest)
  = inr (c, rest).
Proof.
  intros Hrid Hlen Hparse Hh c. unfold written, write_result.
  rewrite CloseComplete_Encode_bytes.
  subst c. cbn [CloseComplete.ResponderCloseSig CloseComplete.ReservationID
                CloseComplete.CloseShaHash Serialize].
  cbv zeta. rewrite decide_True by done.
  cbn [fst snd app]. split; [reflexivity|].
  rewrite <- !app_assoc.
  unfold CloseComplete.Decode, r_bind.
  rewrite readUint64_putUint64 by done.
  rewrite <- ?app_comm_cons, <- ?app_assoc.
  rewrite readSignature_written by done.
  rewrite readShaHash_written by done.
  reflexivity.
Qed.

End WithBtcd.

End LnwireFacts.

(** ** The connection manager *)

Module ServerFacts.
Import Server ServerMore.

Lemma wrap32_small (z : Z) : is_int32 z -> wrap32 z = z.
Proof.
  unfold is_int32, wrap32. intros Hz.
  rewrite Z.mod_small; lia.
Qed.

(** Adding one to a 32-bit counter gives 1 only from 0. *)
Lemma wrap32_succ_eq_1 (z : Z) : is_int32 z -> wrap32 (z + 1) = 1 <-> z = 0.
Proof.
  unfold is_int32. intros Hz. split; [|intros ->; reflexivity].
  destruct (decide (z = 2 ^ 31 - 1)) as [->|Hne].
  - vm_compute. discriminate.
  - rewrite wrap32_small by (unfold is_int32; lia). lia.
Qed.

Lemma wrap32_is_int32 (z : Z) : is_int32 (wrap32 z).
Proof.
  unfold is_int32, wrap32.
  pose proof (Z.mod_pos_bound (z + 2 ^ 31) (2 ^ 32) ltac:(lia)). lia.
Qed.

(** Unfolding the monad. *)
Ltac unfold_M := unfold mbind, M_bind, mret, M_ret, get, modify.

Lemma bind_Done {A B} (m : M A) (k : A -> M B) (w w' : world) (a : A) :
  m w = (Done a, w') -> (m ≫= k) w = k a w'.
Proof. intros H. unfold mbind, M_bind. by rewrite H. Qed.

Lemma bind_Parked {A B} (m : M A) (k : A -> M B) (w w' : world) :
  m w = (Parked, w') -> (m ≫= k) w = (Parked, w').
Proof. intros H. unfold mbind, M_bind. by rewrite H. Qed.

Lemma occurrences_app (e : event) (t1 t2 : list event) :
  occurrences e (t1 ++ t2) = (occurrences e t1 + occurrences e t2)%nat.
Proof. unfold occurrences. by rewrite filter_app, length_app. Qed.

Lemma occurrences_close_seq (j i k : nat) :
  (occurrences (EvListenerClose j) (EvListenerClose <$> seq i k) <= 1)%nat /\
  ((j < i)%nat -> occurrences (EvListenerClose j) (EvListenerClose <$> seq i k) = 0%nat).
Proof.
  revert i. induction k as [|k IH]; intros i; [by split; cbn; auto|].
  cbn [seq fmap list_fmap]. unfold occurrences in *.
  destruct (IH (S i)) as [IH1 IH2].
  rewrite filter_cons. destruct (decide (EvListenerClose i = EvListenerClose j)) as [E|E].
  - injection E as ->. cbn [length]. rewrite IH2 by lia. split; [lia|lia].
  - split; [exact IH1|]. intros Hlt. apply IH2. lia.
Qed.

Lemma closeListeners_spec (i : nat) (ls : list listener) (w : world) :
  closeListeners i ls w
  = (Done (first_close_error ls),
     with_trace (fun t => t ++ (EvListenerClose <$> seq i (closes_made ls))) w).
Proof.
  revert i w. induction ls as [|l ls IH]; intros i w.
  - cbn. destruct w. unfold with_trace. cbn. by rewrite app_nil_r.
  - cbn [closeListeners closes_made first_close_error].
    unfold mbind, M_bind, emit, modify.
    destruct (closeErr l) as [err|].
    + destruct w. reflexivity.
    + rewrite IH. destruct w. unfold with_trace. cbn.
      by rewrite <- app_assoc.
Qed.

(** The loop of [Start] over the listeners. *)
Lemma Start_listeners_loop (i n : nat) (w : world) :
  forM_ (seq i n) (fun i => wg_Add 1;; go (GoListener i)) w
  = (Done tt,
     with_trace (fun t => t ++ ((fun i => EvGo (GoListener i)) <$> seq i n))
       (with_srv (fun s => set_wg (wg s + Z.of_nat n) s) w)).
Proof.
  revert i w. induction n as [|n IH]; intros i w.
  - destruct w as [[] ch tr]. cbn. unfold with_trace, with_srv, set_wg. cbn.
    by rewrite app_nil_r, Z.add_0_r.
  - cbn [seq forM_]. unfold mbind at 1. unfold M_bind.
    replace ((wg_Add 1 ≫= (λ _ : (), go (GoListener i))) w)
      with (Done tt, with_trace (fun t => t ++ [EvGo (GoListener i)])
                       (with_srv (fun s => set_wg (wg s + 1) s) w))
      by reflexivity.
    rewrite IH. destruct w as [[] ch tr].
    unfold with_trace, with_srv, set_wg. cbn.
    rewrite <- app_assoc. do 3 f_equal. lia.
Qed.

Lemma occurrences_close_seq_in (j i k : nat) :
  (i <= j < i + k)%nat ->
  occurrences (EvListenerClose j) (EvListenerClose <$> seq i k) = 1%nat.
Proof.
  revert i. induction k as [|k IH]; intros i Hj; [lia|].
  cbn [seq fmap list_fmap]. unfold occurrences in *.
  rewrite filter_cons.
  destruct (decide (EvListenerClose i = EvListenerClose j)) as [E|E].
  - injection E as ->. cbn [length].
    pose proof (proj2 (occurrences_close_seq j (S j) k) ltac:(lia)) as H0.
    unfold occurrences in H0. by rewrite H0.
  - apply IH. destruct (decide (i = j)) as [->|]; [done|lia].
Qed.

Lemma occurrences_close_seq_out (j i k : nat) :
  (i + k <= j)%nat ->
  occurrences (EvListenerClose j) (EvListenerClose <$> seq i k) = 0%nat.
Proof.
  revert i. induction k as [|k IH]; intros i Hj; [reflexivity|].
  cbn [seq fmap list_fmap]. unfold occurrences in *.
  rewrite filter_cons, decide_False by (intros [= E]; lia).
  apply IH. lia.
Qed.

Lemma occurrences_other_close_seq (e : event) (i k : nat) :
  (forall j, e ≠ EvListenerClose j) ->
  occurrences e (EvListenerClose <$> seq i k) = 0%nat.
Proof.
  intros He. revert i. induction k as [|k IH]; intros i; [reflexivity|].
  cbn [seq fmap list_fmap]. unfold occurrences in *.
  rewrite filter_cons, decide_False by (intros E; by apply (He i)).
  apply IH.
Qed.

Lemma first_close_error_None (ls : list listener) :
  (forall l, l ∈ ls -> closeErr l = None) ->
  first_close_error ls = None /\ closes_made ls = length ls.
Proof.
  induction ls as [|l ls IH]; intros Hall; [done|].
  cbn. rewrite (Hall l) by left.
  destruct IH as [-> ->]; [|done].
  intros l' Hl'. apply Hall. by right.
Qed.

Lemma first_close_error_None_inv (ls : list listener) :
  first_close_error ls = None -> forall l, l ∈ ls -> closeErr l = None.
Proof.
  induction ls as [|l0 ls IH]; intros H l Hl; [by apply elem_of_nil in Hl|].
  cbn in H. destruct (closeErr l0) eqn:H0; [done|].
  apply elem_of_cons in Hl as [->|Hl]; [done|by apply IH].
Qed.

(** [Stop] on a server that no [Stop] has reached yet. *)
Lemma Stop_first (w : world) :
  shutdown (srv w) = 0 -> quit (srv w) = false ->
  let ls := listeners (srv w) in
  let closes := EvListenerClose <$> seq 0 (closes_made ls) in
  Stop w
  = (Done (first_close_error ls),
     match first_close_error ls with
     | Some _ =>
         with_trace (fun t => t ++ closes) (with_srv (set_shutdown 1) w)
     | None =>
         with_srv (set_quit true)
           (with_trace
              (fun t => t ++ closes ++ [EvRpcServerStop; EvWalletStop; EvCloseQuit])
              (with_srv (set_shutdown 1) w))
     end).
Proof.
  destruct w as [[st sh ls ps np dp g qt] ch tr]. cbn [srv shutdown quit listeners].
  intros -> ->. cbv zeta.
  unfold Stop, AddInt32_shutdown; unfold_M.
  cbn [srv shutdown with_srv set_shutdown started listeners peers newPeers
       donePeers wg quit chans trace].
  change (wrap32 (0 + 1)) with 1.
  rewrite decide_False by (intros H; by apply H).
  unfold with_srv at 1 2. cbn [srv listeners set_shutdown].
  rewrite closeListeners_spec.
  destruct (first_close_error ls) as [err|]; [reflexivity|].
  unfold with_trace, with_srv, set_quit, close_quit, emit, modify, mbind, M_bind,
    get, mret, M_ret. cbn.
  unfold with_trace, with_srv, set_quit. cbn.
  by rewrite <- !app_assoc.
Qed.

(** [Stop] on a server whose shutdown flag is set. *)
Lemma Stop_again (w : world) :
  is_int32 (shutdown (srv w)) -> shutdown (srv w) ≠ 0 ->
  Stop w = (Done None, with_srv (set_shutdown (wrap32 (shutdown (srv w) + 1))) w).
Proof.
  intros Hint Hne.
  unfold Stop, AddInt32_shutdown; unfold_M.
  rewrite decide_True; [reflexivity|].
  intros H1. apply Hne. by apply wrap32_succ_eq_1.
Qed.

(** *** The one-shot counters *)

Lemma wrap32_succ (z : Z) : wrap32 (wrap32 z + 1) = wrap32 (z + 1).
Proof.
  unfold wrap32. f_equal.
  replace ((z + 2 ^ 31) mod 2 ^ 32 - 2 ^ 31 + 1 + 2 ^ 31)
    with ((z + 2 ^ 31) mod 2 ^ 32 + 1) by lia.
  replace (z + 1 + 2 ^ 31) with ((z + 2 ^ 31) + 1) by lia.
  rewrite Zplus_mod_idemp_l. reflexivity.
Qed.

Lemma wrap32_nonzero (j : Z) : 0 < j < 2 ^ 32 -> wrap32 j ≠ 0.
Proof.
  intros Hj. unfold wrap32.
  destruct (Z.ltb_spec j (2 ^ 31)).
  - rewrite Z.mod_small by lia. lia.
  - replace (j + 2 ^ 31) with ((j - 2 ^ 31) + 1 * 2 ^ 32) by lia.
    rewrite Z_mod_plus_full, Z.mod_small by lia. lia.
Qed.

(** [Start] on a server whose started flag is set. *)
Lemma Start_again (w : world) :
  is_int32 (started (srv w)) -> started (srv w) ≠ 0 ->
  Start w = (Done tt, with_srv (set_started (wrap32 (started (srv w) + 1))) w).
Proof.
  intros Hint Hne.
  unfold Start, AddInt32_started; unfold_M.
  rewrite decide_True; [reflexivity|].
  intros H1. apply Hne. by apply wrap32_succ_eq_1.
Qed.

(** As long as the counter has not come round, calls of [Start] after the
    first only count. *)
Lemma Start_repeated (n : nat) (j : Z) (w : world) :
  0 < j -> j + Z.of_nat n < 2 ^ 32 -> started (srv w) = wrap32 j ->
  repeatM n Start w
  = (Done tt, with_srv (set_started (wrap32 (j + Z.of_nat n))) w).
Proof.
  revert j w. induction n as [|n IH]; intros j w Hj Hn Hst.
  - cbn [repeatM]. rewrite Z.add_0_r, <- Hst. by destruct w as [[] ? ?].
  - cbn [repeatM].
    erewrite bind_Done;
      [|apply Start_again; rewrite Hst; [apply wrap32_is_int32|apply wrap32_nonzero; lia]].
    rewrite (IH (j + 1)); [|lia|lia|].
    + replace (j + Z.of_nat (S n)) with (j + 1 + Z.of_nat n) by lia.
      by destruct w as [[] ? ?].
    + cbn. rewrite Hst. apply wrap32_succ.
Qed.

(** When it has come round, the flag reads clear again. *)
Lemma Start_counter_comes_round (w : world) :
  started (srv w) = -1 ->
  Start w = (Done tt, with_srv (set_started 0) w).
Proof.
  intros H. rewrite Start_again; rewrite H; [reflexivity| |done].
  unfold is_int32. lia.
Qed.

(** *** Sends on a reply channel *)

Lemma chan_send_handoff (c : nat) (v : option error) (w : world) (ch : chan) :
  chans w !! c = Some ch -> (0 < waiting ch)%nat ->
  chan_send c v w
  = (Done tt,
     with_chans <[c := mkChan (cap ch) (buffered ch) (pred (waiting ch))
                              (handed ch ++ [v])]> w).
Proof.
  intros Hc Hw. unfold chan_send, mbind, M_bind, get. rewrite Hc.
  by rewrite decide_True.
Qed.

Lemma chan_send_buffer (c : nat) (v : option error) (w : world) (ch : chan) :
  chans w !! c = Some ch -> waiting ch = 0%nat ->
  (length (buffered ch) < cap ch)%nat ->
  chan_send c v w
  = (Done tt,
     with_chans <[c := mkChan (cap ch) (buffered ch ++ [v]) (waiting ch)
                              (handed ch)]> w).
Proof.
  intros Hc Hw Hlen. unfold chan_send, mbind, M_bind, get. rewrite Hc.
  rewrite decide_False by lia. by rewrite decide_True.
Qed.

Lemma chan_send_park (c : nat) (v : option error) (w : world) (ch : chan) :
  chans w !! c = Some ch -> waiting ch = 0%nat ->
  (cap ch <= length (buffered ch))%nat ->
  chan_send c v w = (Parked, w).
Proof.
  intros Hc Hw Hlen. unfold chan_send, mbind, M_bind, get. rewrite Hc.
  rewrite decide_False by lia. by rewrite decide_False by lia.
Qed.

Lemma with_chans_insert_insert (c : nat) (ch1 ch2 : chan) (w : world) :
  with_chans <[c := ch2]> (with_chans <[c := ch1]> w) = with_chans <[c := ch2]> w.
Proof. unfold with_chans. cbn. by rewrite insert_insert_eq. Qed.

Lemma chans_with_chans_insert (c : nat) (ch : chan) (w : world) :
  chans (with_chans <[c := ch]> w) !! c = Some ch.
Proof. unfold with_chans. cbn. apply lookup_insert_eq. Qed.

(** The scan sends for the matching peers only. *)
Lemma dupScan_matching (msg : connectPeerMsg) (iter : list peer) (w : world) :
  dupScan msg iter w = dupScan msg (matching (addr msg) iter) w.
Proof.
  revert w. induction iter as [|p iter IH]; intros w; [reflexivity|].
  unfold matching. rewrite filter_cons. cbn [dupScan].
  destruct (decide (LNAdr_String (lightningAddr p) = LNAdr_String (addr msg))) as [E|E].
  - cbn [dupScan]. rewrite decide_True by done.
    unfold mbind, M_bind. destruct (chan_send _ _ w) as [[[]| |] w']; auto.
  - unfold mbind, M_bind, mret, M_ret. apply IH.
Qed.

Lemma matching_all (a : LNAdr) (iter : list peer) (p : peer) :
  p ∈ matching a iter ->
  p ∈ iter /\ LNAdr_String (lightningAddr p) = LNAdr_String a.
Proof. unfold matching. intros H. by apply list_elem_of_filter in H as [? ?]. Qed.

(** What the scan does to a reply channel just made, by the number of
    matching peers: none, one, two, more. *)
Lemma dupScan_on_matches (msg : connectPeerMsg) (l : list peer) (w : world) :
  (forall p, p ∈ l -> LNAdr_String (lightningAddr p) = LNAdr_String (addr msg)) ->
  chans w !! reply msg = Some fresh_chan ->
  let dup p := Some (ErrAlreadyConnected (lightningAddr p)) in
  dupScan msg l w =
  match l with
  | [] => (Done tt, w)
  | [p1] => (Done tt, with_chans <[reply msg := mkChan 1 [] 0 [dup p1]]> w)
  | [p1; p2] => (Done tt, with_chans <[reply msg := mkChan 1 [dup p2] 0 [dup p1]]> w)
  | p1 :: p2 :: _ :: _ =>
      (Parked, with_chans <[reply msg := mkChan 1 [dup p2] 0 [dup p1]]> w)
  end.
Proof.
  intros Hall Hc dup.
  destruct l as [|p1 l]; [reflexivity|].
  cbn [dupScan]. rewrite decide_True by (apply Hall; left).
  rewrite (bind_Done _ _ _ _ _ (chan_send_handoff _ _ _ _ Hc ltac:(cbn; lia))).
  cbn [fresh_chan cap buffered waiting handed pred app].
  destruct l as [|p2 l]; [reflexivity|].
  cbn [dupScan]. rewrite decide_True by (apply Hall; right; left).
  rewrite (bind_Done _ _ _ _ _
             (chan_send_buffer _ _ _ (mkChan 1 [] 0 [dup p1])
                (chans_with_chans_insert _ _ _) eq_refl ltac:(cbn; lia))).
  cbn [cap buffered waiting handed app]. rewrite with_chans_insert_insert.
  destruct l as [|p3 l]; [reflexivity|].
  cbn [dupScan]. rewrite decide_True by (apply Hall; right; right; left).
  by rewrite (bind_Parked _ _ _ _
                (chan_send_park _ _ _ (mkChan 1 [dup p2] 0 [dup p1])
                   (chans_with_chans_insert _ _ _) eq_refl ltac:(cbn; lia))).
Qed.

(** *** Goroutines only add to the trace and to what receivers got *)

Lemma extends_refl (w : world) : extends w w.
Proof. split; [done|]. intros c ch Hc. by exists ch. Qed.

Lemma extends_trans (w1 w2 w3 : world) :
  extends w1 w2 -> extends w2 w3 -> extends w1 w3.
Proof.
  intros [Ht1 Hc1] [Ht2 Hc2]. split; [by etrans|].
  intros c ch Hc. destruct (Hc1 c ch Hc) as (ch' & Hc' & Hp).
  destruct (Hc2 c ch' Hc') as (ch'' & Hc'' & Hp').
  exists ch''. split; [done|by etrans].
Qed.

Lemma extends_insert (c : nat) (ch0 ch1 : chan) (w : world) :
  chans w !! c = Some ch0 -> handed ch0 `prefix_of` handed ch1 ->
  extends w (with_chans <[c := ch1]> w).
Proof.
  intros Hc Hp. split; [done|]. intros c' ch Hc'.
  unfold with_chans. cbn [chans]. destruct (decide (c = c')) as [<-|Hne].
  - rewrite lookup_insert_eq. exists ch1. split; [done|]. congruence.
  - rewrite lookup_insert_ne by done. by exists ch.
Qed.

Lemma chan_send_extends (c : nat) (v : option error) (w : world) :
  extends w (snd (chan_send c v w)).
Proof.
  unfold chan_send, mbind, M_bind, get.
  destruct (chans w !! c) as [ch|] eqn:Hc; [|apply extends_refl].
  destruct (decide (0 < waiting ch)%nat).
  - cbn. eapply extends_insert; [done|]. cbn. by apply prefix_app_r.
  - destruct (decide (length (buffered ch) < cap ch)%nat); [|apply extends_refl].
    cbn. by eapply extends_insert.
Qed.

Lemma emit_extends (e : event) (w : world) : extends w (snd (emit e w)).
Proof.
  split; [by apply prefix_app_r|]. intros c ch Hc. by exists ch.
Qed.

Lemma newPeers_send_extends (p : option peer) (w : world) :
  extends w (snd (newPeers_send p w)).
Proof.
  unfold newPeers_send, mbind, M_bind, get.
  destruct (decide _); [|apply extends_refl].
  split; [done|]. intros c ch Hc. by exists ch.
Qed.

Lemma bind_extends {A B} (m : M A) (k : A -> M B) :
  (forall w, extends w (snd (m w))) ->
  (forall a w, extends w (snd (k a w))) ->
  forall w, extends w (snd ((m ≫= k) w)).
Proof.
  intros Hm Hk w. unfold mbind, M_bind.
  specialize (Hm w). destruct (m w) as [[a| |] w']; cbn in *; [|done..].
  eapply extends_trans; [exact Hm|apply Hk].
Qed.

Create HintDb extends discriminated.
#[local] Hint Resolve extends_refl chan_send_extends emit_extends
  newPeers_send_extends : extends.

Lemma dial_extends (msg : connectPeerMsg) (dialErr : option error) (newp : peer)
    (w : world) :
  extends w (snd (dial msg dialErr newp w)).
Proof.
  unfold dial. revert w.
  repeat (apply bind_extends; [try destruct dialErr; auto with extends|intros _]).
  auto with extends.
Qed.

(** *** A connect request, step by step *)

Lemma bind_ret {A B} (a : A) (k : A -> M B) (w : world) : (mret a ≫= k) w = k a w.
Proof. reflexivity. Qed.

Lemma bind_emit {B} (e : event) (k : unit -> M B) (w : world) :
  (emit e ≫= k) w = k tt (with_trace (fun t => t ++ [e]) w).
Proof. reflexivity. Qed.

Lemma bind_newPeers_send {B} (p : option peer) (k : unit -> M B) (w : world) :
  (length (newPeers (srv w)) < newPeers_cap)%nat ->
  (newPeers_send p ≫= k) w
  = k tt (with_srv (fun s => set_newPeers (newPeers s ++ [p]) s) w).
Proof.
  intros Hroom. unfold newPeers_send, mbind, M_bind, get.
  by rewrite decide_True.
Qed.

Lemma aside_eq {A} (m : M A) (w w' : world) (r : outcome A) :
  m w = (r, w') -> aside m w = (Done r, w').
Proof. intros H. unfold aside. by rewrite H. Qed.

Lemma make_reply_eq (w : world) :
  make_reply w
  = (Done (fresh (dom (chans w))),
     with_chans <[fresh (dom (chans w)) := fresh_chan]> w).
Proof. reflexivity. Qed.

Lemma queryHandler_turn_connect (msg : connectPeerMsg) (iter : list peer)
    (w w' : world) :
  dupScan msg iter w = (Done tt, w') ->
  queryHandler_turn (QhQuery (QConnectPeerMsg msg)) iter w
  = (Done Continue, with_trace (fun t => t ++ [EvGo (GoDial msg)]) w').
Proof.
  intros H. cbn [queryHandler_turn]. by rewrite (bind_Done _ _ _ _ _ H).
Qed.

Lemma queryHandler_turn_connect_parked (msg : connectPeerMsg) (iter : list peer)
    (w w' : world) :
  dupScan msg iter w = (Parked, w') ->
  queryHandler_turn (QhQuery (QConnectPeerMsg msg)) iter w = (Parked, w').
Proof.
  intros H. cbn [queryHandler_turn]. by rewrite (bind_Parked _ _ _ _ H).
Qed.

Lemma reply_recv_eq (c : nat) (w : world) (ch : chan) (v : option error)
    (vs : list (option error)) :
  chans w !! c = Some ch -> handed ch = v :: vs ->
  reply_recv c w = (Done v, w).
Proof.
  intros Hc Hh. unfold reply_recv, mbind, M_bind, get. by rewrite Hc, Hh.
Qed.

(** The dial goroutine when nothing has been sent on the reply channel. *)
Lemma dial_on_fresh_chan (msg : connectPeerMsg) (dialErr : option error)
    (newp : peer) (w : world) :
  chans w !! reply msg = Some fresh_chan ->
  (length (newPeers (srv w)) < newPeers_cap)%nat ->
  dial msg dialErr newp w
  = (Done tt,
     with_chans
       <[reply msg := match dialErr with
                      | Some err => mkChan 1 [None] 0 [Some err]
                      | None => mkChan 1 [] 0 [None]
                      end]>
       (with_srv (fun s => set_newPeers (newPeers s ++ [Some newp]) s)
          (with_trace
             (fun t => t ++ [EvDial (NetAddr (addr msg)) (remoteID_of (addr msg));
                             EvNewPeer (peerID newp)])
             w))).
Proof.
  intros Hc Hroom. unfold dial. fold (remoteID_of (addr msg)).
  rewrite bind_emit.
  destruct dialErr as [err|].
  - erewrite (bind_Done (chan_send _ _));
      [|by apply (chan_send_handoff _ _ _ fresh_chan); [exact Hc|cbn; lia]].
    cbn [fresh_chan cap buffered waiting handed pred app].
    rewrite bind_emit, bind_newPeers_send by exact Hroom.
    erewrite (chan_send_buffer _ _ _ (mkChan 1 [] 0 [Some err]));
      [|cbn [chans with_srv with_trace with_chans]; apply lookup_insert_eq
       |reflexivity|cbn; lia].
    destruct w as [s ch tr]. unfold with_chans, with_srv, with_trace. cbn.
    by rewrite insert_insert_eq, <- app_assoc.
  - rewrite bind_ret, bind_emit, bind_newPeers_send by exact Hroom.
    erewrite (chan_send_handoff _ _ _ fresh_chan); [|exact Hc|cbn; lia].
    destruct w as [s ch tr]. unfold with_chans, with_srv, with_trace. cbn.
    by rewrite <- app_assoc.
Qed.

Lemma aside_then_ret {A} (m : M A) (w w' : world) (r : outcome A) :
  m w = (r, w') -> (aside m ≫= fun _ => mret tt) w = (Done tt, w').
Proof. intros H. by rewrite (bind_Done _ _ _ _ _ (aside_eq _ _ _ _ H)). Qed.

(** [ConnectToPeer] once the turn of [queryHandler] is known to get through
    the scan. *)
Lemma ConnectToPeer_scan_done (a : LNAdr) (iter : list peer)
    (dialErr : option error) (newp : peer) (w w2 : world) :
  let c := fresh (dom (chans w)) in
  let msg := mkConnectPeerMsg a c in
  dupScan msg iter (with_chans <[c := fresh_chan]> w) = (Done tt, w2) ->
  ConnectToPeer a iter dialErr newp w
  = reply_recv c
      (snd (dial msg dialErr newp (with_trace (fun t => t ++ [EvGo (GoDial msg)]) w2))).
Proof.
  intros c msg Hscan. unfold ConnectToPeer.
  rewrite (bind_Done _ _ _ _ _ (make_reply_eq w)). fold c. cbv zeta. fold msg.
  rewrite (bind_Done _ _ _ _ _
             (aside_eq _ _ _ _ (queryHandler_turn_connect _ _ _ _ Hscan))).
  destruct (dial msg dialErr newp
              (with_trace (fun t => t ++ [EvGo (GoDial msg)]) w2)) as [r w3] eqn:Hd.
  by rewrite (bind_Done _ _ _ _ _ (aside_then_ret _ _ _ _ Hd)).
Qed.

(** A connect request to a peer we are not connected to: the caller gets the
    outcome of the dial; when the dial failed, a nil follows the error onto
    the reply channel, and the peer is built and queued all the same. *)
Lemma ConnectToPeer_no_duplicate (a : LNAdr) (iter : list peer)
    (dialErr : option error) (newp : peer) (w : world) :
  matching a iter = [] ->
  (length (newPeers (srv w)) < newPeers_cap)%nat ->
  let c := fresh (dom (chans w)) in
  let msg := mkConnectPeerMsg a c in
  exists w',
    ConnectToPeer a iter dialErr newp w = (Done dialErr, w') /\
    delivered c w' = match dialErr with
                     | Some err => [Some err; None]
                     | None => [None]
                     end /\
    newPeers (srv w') = newPeers (srv w) ++ [Some newp] /\
    trace w' = trace w ++ [EvGo (GoDial msg);
                           EvDial (NetAddr a) (remoteID_of a);
                           EvNewPeer (peerID newp)].
Proof.
  intros Hm Hroom c msg.
  assert (Hscan : dupScan msg iter (with_chans <[c := fresh_chan]> w)
                  = (Done tt, with_chans <[c := fresh_chan]> w)).
  { rewrite dupScan_matching. cbn [addr msg]. by rewrite Hm. }
  rewrite (ConnectToPeer_scan_done a iter dialErr newp w _ Hscan). fold c msg.
  rewrite dial_on_fresh_chan;
    [|cbn [chans with_trace with_chans reply msg]; apply lookup_insert_eq|exact Hroom].
  cbn [snd reply addr msg].
  match goal with |- context [reply_recv c ?W] => exists W end.
  split; [|split; [|split]].
  - destruct dialErr; (eapply reply_recv_eq; [apply chans_with_chans_insert|]);
      reflexivity.
  - unfold delivered. rewrite chans_with_chans_insert. by destruct dialErr.
  - reflexivity.
  - cbn. by rewrite <- app_assoc.
Qed.

Lemma matching_addr (a : LNAdr) (iter : list peer) (l : list peer) (c : nat) :
  matching a iter = l ->
  forall p, p ∈ l ->
    LNAdr_String (lightningAddr p) = LNAdr_String (addr (mkConnectPeerMsg a c)).
Proof. intros <- p Hp. by apply matching_all in Hp as [_ ?]. Qed.

(** A connect request to a peer that one or two registered peers match: the
    caller gets the duplicate error of the first match, and the dial goroutine
    is launched. *)
Lemma ConnectToPeer_duplicate (a : LNAdr) (iter : list peer)
    (dialErr : option error) (newp : peer) (w : world) (p1 : peer) (rest : list peer) :
  matching a iter = p1 :: rest -> (length rest <= 1)%nat ->
  let c := fresh (dom (chans w)) in
  let msg := mkConnectPeerMsg a c in
  exists w',
    ConnectToPeer a iter dialErr newp w
    = (Done (Some (ErrAlreadyConnected (lightningAddr p1))), w') /\
    EvGo (GoDial msg) ∈ trace w' /\
    exists vs, delivered c w' = Some (ErrAlreadyConnected (lightningAddr p1)) :: vs.
Proof.
  intros Hm Hlen c msg.
  set (w1 := with_chans <[c := fresh_chan]> w).
  assert (Hscan : exists b, dupScan msg iter w1
            = (Done tt, with_chans
                 <[c := mkChan 1 b 0 [Some (ErrAlreadyConnected (lightningAddr p1))]]> w1)).
  { rewrite dupScan_matching. cbn [addr msg]. rewrite Hm.
    rewrite dupScan_on_matches;
      [|by apply (matching_addr a iter)|apply chans_with_chans_insert].
    destruct rest as [|p2 [|p3 rest]]; [by eexists..|cbn in Hlen; lia]. }
  destruct Hscan as [b Hscan].
  rewrite (ConnectToPeer_scan_done a iter dialErr newp w _ Hscan). fold c msg.
  match goal with |- context [dial msg dialErr newp ?W] =>
    pose proof (dial_extends msg dialErr newp W) as [Htr Hch];
    destruct (Hch c (mkChan 1 b 0 [Some (ErrAlreadyConnected (lightningAddr p1))]))
      as (ch' & Hc' & [vs Hvs]);
      [cbn [chans with_trace]; apply chans_with_chans_insert|];
    exists (snd (dial msg dialErr newp W))
  end.
  cbn [handed app] in Hvs.
  split; [by eapply reply_recv_eq|]. split.
  - destruct Htr as [k ->]. cbn [trace with_trace].
    rewrite !elem_of_app. left. right. by left.
  - unfold delivered. rewrite Hc', Hvs. by eexists.
Qed.

(** A connect request to a peer that three or more registered peers match:
    the caller gets the duplicate error of the first match, but the turn of
    [queryHandler] parks on its third send and launches nothing. *)
Lemma ConnectToPeer_three_duplicates (a : LNAdr) (iter : list peer)
    (dialErr : option error) (newp : peer) (w : world)
    (p1 p2 p3 : peer) (rest : list peer) :
  matching a iter = p1 :: p2 :: p3 :: rest ->
  let c := fresh (dom (chans w)) in
  let msg := mkConnectPeerMsg a c in
  let w' := with_chans
              <[c := mkChan 1 [Some (ErrAlreadyConnected (lightningAddr p2))] 0
                            [Some (ErrAlreadyConnected (lightningAddr p1))]]> w in
  queryHandler_turn (QhQuery (QConnectPeerMsg msg)) iter
    (with_chans <[c := fresh_chan]> w) = (Parked, w') /\
  ConnectToPeer a iter dialErr newp w
  = (Done (Some (ErrAlreadyConnected (lightningAddr p1))), w') /\
  trace w' = trace w.
Proof.
  intros Hm c msg w'.
  assert (Hscan : dupScan msg iter (with_chans <[c := fresh_chan]> w) = (Parked, w')).
  { rewrite dupScan_matching. cbn [addr msg]. rewrite Hm.
    rewrite dupScan_on_matches;
      [|by apply (matching_addr a iter)|apply chans_with_chans_insert].
    cbn [reply msg]. by rewrite with_chans_insert_insert. }
  pose proof (queryHandler_turn_connect_parked _ _ _ _ Hscan) as Hturn.
  split; [exact Hturn|]. split; [|reflexivity].
  unfold ConnectToPeer.
  rewrite (bind_Done _ _ _ _ _ (make_reply_eq w)). fold c. cbv zeta. fold msg.
  rewrite (bind_Done _ _ _ _ _ (aside_eq _ _ _ _ Hturn)).
  rewrite bind_ret.
  eapply reply_recv_eq; [apply chans_with_chans_insert|reflexivity].
Qed.

(** *** The one-shot counters, over many calls *)

Lemma repeatM_app (n m : nat) (f : M unit) (w : world) :
  repeatM (n + m) f w = (repeatM n f ≫= fun _ => repeatM m f) w.
Proof.
  revert w. induction n as [|n IH]; intros w; [reflexivity|].
  cbn [Nat.add repeatM]. unfold mbind, M_bind in *.
  destruct (f w) as [[[]| |] w1]; [|done..]. apply IH.
Qed.

Lemma Start_first (w : world) :
  started (srv w) = 0 ->
  Start w
  = (Done tt,
     with_trace (fun t => t ++ launches (listeners (srv w)))
       (with_srv (fun s => set_wg (wg s + Z.of_nat (length (listeners s)) + 2)
                             (set_started 1 s)) w)).
Proof.
  destruct w as [[st sh ls ps np dp g qt] ch tr]. cbn [srv started]. intros ->.
  unfold Start, AddInt32_started; unfold_M.
  cbn [srv started]. change (wrap32 (0 + 1)) with 1.
  rewrite decide_False by (intros H; by apply H).
  cbn [with_srv set_started srv shutdown listeners peers newPeers donePeers
       wg quit chans trace].
  pose proof (Start_listeners_loop 0 (length ls)) as Hloop.
  unfold mbind, M_bind in Hloop. rewrite Hloop.
  unfold launches, with_trace, with_srv, set_wg, set_started, go, emit, modify,
    wg_Add, with_trace, with_srv. cbn.
  by rewrite <- !app_assoc.
Qed.

(** Where [Stop] stops closing. *)
Lemma first_close_error_at (ls : list listener) (e : error) :
  first_close_error ls = Some e ->
  exists k l,
    ls !! k = Some l /\ closeErr l = Some e /\ closes_made ls = S k /\
    forall j l', (j < k)%nat -> ls !! j = Some l' -> closeErr l' = None.
Proof.
  induction ls as [|l ls IH]; [done|]. cbn [first_close_error closes_made].
  destruct (closeErr l) as [err|] eqn:Hl.
  - intros [= ->]. exists 0%nat, l. repeat split; [done|]. intros j l' Hj. lia.
  - intros H. destruct (IH H) as (k & l0 & Hk & He & Hc & Hbefore).
    exists (S k), l0. repeat split; [done..|by rewrite Hc|].
    intros [|j] l' Hj Hl'; cbn in Hl'; [by injection Hl' as <-|].
    apply (Hbefore j); [lia|done].
Qed.

(** After 2^32 calls of [Start] on a server not yet started the counter reads
    0 again, and the next call launches the workers a second time. *)
Lemma Start_comes_round_and_launches_again (w : world) :
  started (srv w) = 0 ->
  exists w',
    repeatM (Z.to_nat (2 ^ 32)) Start w = (Done tt, w') /\
    started (srv w') = 0 /\
    trace w' = trace w ++ launches (listeners (srv w)) /\
    trace (snd (Start w'))
    = trace w ++ launches (listeners (srv w)) ++ launches (listeners (srv w)).
Proof.
  intros H0.
  remember (Z.to_nat (2 ^ 32 - 2)) as n0 eqn:En0.
  assert (Hn0 : Z.of_nat n0 = 2 ^ 32 - 2) by lia.
  assert (Hnat : Z.to_nat (2 ^ 32) = S (n0 + 1)) by lia.
  rewrite Hnat. clear Hnat En0.
  change (repeatM (S (n0 + 1)) Start w)
    with ((Start ≫= fun _ => repeatM (n0 + 1) Start) w).
  rewrite (bind_Done _ _ _ _ _ (Start_first w H0)).
  rewrite repeatM_app.
  erewrite bind_Done;
    [|apply (Start_repeated n0 1); [lia|lia|by destruct w as [[] ? ?]]].
  rewrite Hn0. change (wrap32 (1 + (2 ^ 32 - 2))) with (-1).
  change (repeatM 1 Start) with (Start ≫= fun _ => mret tt).
  erewrite bind_Done; [|apply Start_counter_comes_round; by destruct w as [[] ? ?]].
  eexists. split; [reflexivity|]. split; [by destruct w as [[] ? ?]|].
  split; [by destruct w as [[] ? ?]|].
  rewrite Start_first by (by destruct w as [[] ? ?]).
  destruct w as [[] ? ?]. cbn. by rewrite <- app_assoc.
Qed.

End ServerFacts.
(** * The specification, claim by claim *)

Module LnwireSpec.
Import Bytes BytesFacts Lnwire LnwireFacts.

(** C4, as stated, fails at the nil fields it names: no bytes at all decode
    to a [CloseComplete] whose signature and hash are nil, whatever btcec
    does, because the decoders of the two fields never yield nil. So
    whatever [Encode] writes for such a message, [Decode] does not give the
    message back. *)
Lemma nil_fields_never_come_out_of_Decode :
  let m := MsgCloseComplete (CloseComplete.mk 1 None None) in
  wf m /\
  ~ (exists (B : Btcd) (pver : Z) (bs rest : list byte),
       Decode (variant_of m) pver bs = inr (m, rest)).
Proof.
  cbv zeta. split.
  - split; [unfold is_uint64, uint64_max; cbn; lia | intros h Hh; discriminate Hh].
  - intros (B & pver & bs & rest & H).
    cbn [variant_of Decode] in H. unfold r_bind at 1 in H.
    destruct (CloseComplete.Decode pver bs) as [e|[c r1]] eqn:Hc; [done|].
    apply CloseComplete_Decode_not_nil in Hc as [_ (h & Hh)].
    unfold r_ret in H. injection H as -> _. discriminate Hh.
Qed.

(** C4, amended: for every message variant and every field assignment the
    Go types allow in which the signature and the hash of [CloseComplete]
    are not nil, the signature has both its components, serializes to at
    most 73 bytes and is given back by [btcec.ParseSignature] from its
    serialization, [Encode] succeeds and [Decode] of the bytes it wrote
    gives back the message, field by field, and leaves the rest of the
    stream unread. *)
Theorem Decode_Encode_round_trip `{B : Btcd}
    (m : Message) (pver : Z) (rest : list byte) :
  wf m -> fields_set m ->
  write_result (Encode m pver) = WOk /\
  Decode (variant_of m) pver (written (Encode m pver) ++ rest) = inr (m, rest).
Proof.
  destruct m as [c|c|c]; cbn [wf fields_set Encode Decode variant_of].
  - intros Hwf _. split.
    + unfold write_result. by rewrite HTLCAddReject_Encode_bytes.
    + unfold r_bind at 1. by rewrite HTLCAddReject_round_trip.
  - intros Hwf _. split.
    + unfold write_result. by rewrite HTLCAddAccept_Encode_bytes.
    + unfold r_bind at 1. by rewrite HTLCAddAccept_round_trip.
  - destruct c as [rid sig sha].
    intros [Hrid Hsha] [(r & s & Hsig & Hlen & Hparse) (h & Hh)].
    cbn in Hsig, Hh, Hrid. subst sig sha.
    destruct (CloseComplete_round_trip rid r s h pver rest Hrid Hlen Hparse)
      as [Hok Hdec]; [by apply Hsha|].
    split; [exact Hok|].
    unfold r_bind at 1. by rewrite Hdec.
Qed.

Lemma Decode_Encode_round_trip_witness :
  let m := MsgCloseComplete
             (CloseComplete.mk 7 (Some (mkSignature (Some 1) (Some 1)))
                               (Some (replicate 32 xab))) in
  written (@Encode btcd_small m 1)
  = putUint64 7 ++ [x08; x30; x06; x02; x01; x01; x02; x01; x01] ++ replicate 32 xab /\
  @Decode btcd_small (variant_of m) 1 (written (@Encode btcd_small m 1) ++ [xff])
  = inr (m, [xff]).
Proof.
  cbv zeta. split; [reflexivity|].
  refine (proj2 (@Decode_Encode_round_trip btcd_small _ 1 [xff] _ _)).
  - split; [unfold is_uint64, uint64_max; cbn; lia|].
    intros h Hh. injection Hh as <-. reflexivity.
  - split.
    + exists 1, 1. split; [reflexivity|]. split; [|reflexivity].
      unfold MaxSigLen. cbn. lia.
    + eexists. reflexivity.
Defined.





End LnwireSpec.

Module ServerSpec.
Import Server ServerFacts.

(** C7: when the shutdown flag is set, a peer the mutator takes off the
    new-peer queue is stopped and the peer map stays as it was; when the
    flag is clear, the peer is entered in the map under its identifier,
    whatever the map held there. Either way the mutator goes on. *)
Theorem new_peer_stopped_during_shutdown_else_registered
    (w : world) (p : peer) (q : list (option peer)) :
  newPeers (srv w) = Some p :: q ->
  exists w',
    peerManager_turn PmNewPeer w = (Done Continue, w') /\
    newPeers (srv w') = q /\
    (shutdown (srv w) ≠ 0 ->
       peers (srv w') = peers (srv w) /\
       trace w' = trace w ++ [EvPeerStop (peerID p)]) /\
    (shutdown (srv w) = 0 ->
       peers (srv w') = <[peerID p := p]> (peers (srv w)) /\
       peers (srv w') !! peerID p = Some p /\
       trace w' = trace w).
Proof.
  intros Hq. destruct w as [s ch tr]. cbn in Hq.
  unfold peerManager_turn, newPeers_recv, addPeer, mbind, M_bind, get, modify,
    emit, mret, M_ret. cbn. rewrite Hq. cbn.
  destruct (decide (shutdown s ≠ 0)) as [Hs|Hs]; eexists; (split; [reflexivity|]);
    cbn; (split; [reflexivity|]); split; intros Hs'; try done.
  - split; [reflexivity|split; [apply lookup_insert_eq|reflexivity]].
Qed.

Lemma new_peer_stopped_during_shutdown_else_registered_witness :
  let p := mkPeer 7 (mkLNAdr None [x01] "10.0.0.1:10011" "pkh@10.0.0.1:10011") in
  let w := with_srv (fun s => set_shutdown 1 (set_newPeers [Some p] s)) (newServer []) in
  exists w',
    peerManager_turn PmNewPeer w = (Done Continue, w') /\
    newPeers (srv w') = [] /\
    (shutdown (srv w) ≠ 0 ->
       peers (srv w') = peers (srv w) /\
       trace w' = trace w ++ [EvPeerStop (peerID p)]) /\
    (shutdown (srv w) = 0 ->
       peers (srv w') = <[peerID p := p]> (peers (srv w)) /\
       peers (srv w') !! peerID p = Some p /\
       trace w' = trace w).
Proof.
  cbv zeta.
  apply (new_peer_stopped_during_shutdown_else_registered _ _ []).
  reflexivity.
Defined.

(** C9: a peer the mutator takes off the done-peer queue whose identifier
    is not in the peer map changes nothing: [removePeer] leaves the world as
    it is, only the message is gone from the queue, and the mutator goes on
    with the cases that follow. *)
Theorem done_peer_not_registered_is_noop
    (w : world) (p : peer) (q : list (option peer)) (sched : list pm_case) :
  donePeers (srv w) = Some p :: q ->
  peers (srv w) !! peerID p = None ->
  removePeer (Some p) w = (Done tt, w) /\
  peerManager_turn PmDonePeer w = (Done Continue, with_srv (set_donePeers q) w) /\
  peers (srv (with_srv (set_donePeers q) w)) = peers (srv w) /\
  peerManager (PmDonePeer :: sched) w = peerManager sched (with_srv (set_donePeers q) w).
Proof.
  intros Hq _. destruct w as [s ch tr]. cbn in Hq.
  assert (Hturn : peerManager_turn PmDonePeer (mkWorld s ch tr)
                  = (Done Continue, with_srv (set_donePeers q) (mkWorld s ch tr))).
  { unfold peerManager_turn, donePeers_recv, removePeer, mbind, M_bind, get,
      modify, mret, M_ret. cbn. rewrite Hq. reflexivity. }
  split; [reflexivity|]. split; [exact Hturn|]. split; [reflexivity|].
  cbn [peerManager]. by rewrite (bind_Done _ _ _ _ _ Hturn).
Qed.

Lemma done_peer_not_registered_is_noop_witness :
  let p := mkPeer 7 (mkLNAdr None [x01] "10.0.0.1:10011" "pkh@10.0.0.1:10011") in
  let w := with_srv (set_donePeers [Some p]) (newServer []) in
  peerManager_turn PmDonePeer w = (Done Continue, with_srv (set_donePeers []) w).
Proof.
  cbv zeta.
  refine (proj1 (proj2 (done_peer_not_registered_is_noop _ _ [] [] _ _)));
    reflexivity.
Defined.

(** C10: a query that is not a connect-to-peer message is taken off the
    queue and dropped: nothing is sent on any reply channel, the world is
    unchanged, and the query processor goes on with the cases that
    follow. *)
Theorem other_query_is_discarded
    (w : world) (ty : string) (iter : list peer)
    (sched : list (qh_case * list peer)) :
  queryHandler_turn (QhQuery (QOther ty)) iter w = (Done Continue, w) /\
  (forall c, delivered c (snd (queryHandler_turn (QhQuery (QOther ty)) iter w))
             = delivered c w) /\
  queryHandler ((QhQuery (QOther ty), iter) :: sched) w = queryHandler sched w.
Proof. repeat split. Qed.

(** C8, as stated, fails: the started counter is a 32-bit integer that every
    call of [Start] increments. After 2^32 calls on a server with one
    listener it reads 0 again, the workers having been launched once, and
    the call after that, far from a no-op, launches all three again. *)
Lemma Start_after_2_32_calls_launches_again :
  let w := newServer [mkListener "0.0.0.0:10011" None] in
  exists w',
    repeatM (Z.to_nat (2 ^ 32)) Start w = (Done tt, w') /\
    started (srv w') = 0 /\
    trace w' = [EvGo (GoListener 0); EvGo GoPeerManager; EvGo GoQueryHandler] /\
    trace (snd (Start w'))
    = [EvGo (GoListener 0); EvGo GoPeerManager; EvGo GoQueryHandler;
       EvGo (GoListener 0); EvGo GoPeerManager; EvGo GoQueryHandler].
Proof.
  cbv zeta.
  destruct (Start_comes_round_and_launches_again
              (newServer [mkListener "0.0.0.0:10011" None]) eq_refl)
    as (w' & HR & Hs & Ht & Ht2).
  exists w'. split; [exact HR|]. split; [exact Hs|]. split; [exact Ht|exact Ht2].
Qed.

(** C8, amended: [Start] on a server whose started counter is 0 launches one
    accept loop for each listener, the peer-set mutator and the query
    processor, and sets the counter to 1. Each of the calls that follow, up
    to the (2^32 - 1)-th call in all, launches nothing and changes nothing
    but the counter, which does not read 0 after any of them. In any state,
    a call that finds the counter other than 0 changes the counter only. *)
Theorem Start_launches_workers_once (w : world) :
  (started (srv w) = 0 ->
     exists w1,
       Start w = (Done tt, w1) /\
       trace w1 = trace w
                  ++ ((fun i => EvGo (GoListener i))
                        <$> seq 0 (length (listeners (srv w))))
                  ++ [EvGo GoPeerManager; EvGo GoQueryHandler] /\
       wg (srv w1) = wg (srv w) + Z.of_nat (length (listeners (srv w))) + 2 /\
       started (srv w1) = 1 /\
       forall n : nat, Z.of_nat n < 2 ^ 32 - 1 ->
         repeatM n Start w1
         = (Done tt, with_srv (set_started (wrap32 (1 + Z.of_nat n))) w1) /\
         wrap32 (1 + Z.of_nat n) ≠ 0) /\
  (is_int32 (started (srv w)) -> started (srv w) ≠ 0 ->
     Start w = (Done tt, with_srv (set_started (wrap32 (started (srv w) + 1))) w)).
Proof.
  split.
  - intros H0. eexists. split; [exact (Start_first w H0)|].
    split; [|split; [|split]].
    + destruct w as [[] ? ?]. reflexivity.
    + destruct w as [[] ? ?]. reflexivity.
    + destruct w as [[] ? ?]. reflexivity.
    + intros n Hn. split; [|apply wrap32_nonzero; lia].
      apply (Start_repeated n 1); [lia|lia|]. by destruct w as [[] ? ?].
  - apply Start_again.
Qed.

Lemma Start_launches_workers_once_witness :
  let w := newServer [mkListener "0.0.0.0:10011" None; mkListener "[::]:10011" None] in
  exists w1,
    Start w = (Done tt, w1) /\
    trace w1 = [EvGo (GoListener 0); EvGo (GoListener 1);
                EvGo GoPeerManager; EvGo GoQueryHandler] /\
    wg (srv w1) = 4 /\
    started (srv w1) = 1 /\
    repeatM 2 Start w1 = (Done tt, with_srv (set_started 3) w1).
Proof.
  cbv zeta.
  destruct (proj1 (Start_launches_workers_once
                     (newServer [mkListener "0.0.0.0:10011" None;
                                 mkListener "[::]:10011" None])) eq_refl)
    as (w1 & HS & Ht & Hwg & Hst & Hn).
  exists w1. split; [exact HS|]. split; [exact Ht|]. split; [exact Hwg|].
  split; [exact Hst|].
  exact (proj1 (Hn 2%nat ltac:(cbn; lia))).
Defined.

(** C3, as stated, fails twice over: the first [Stop] returns the error of a
    listener whose [Close] fails, and a second [Stop], though it returns nil,
    changes the state: it adds one to the shutdown counter. *)
Lemma Stop_may_return_error_and_always_counts :
  (let w := newServer [mkListener "0.0.0.0:10011" (Some (ErrExternal "close failed"))] in
   fst (Stop w) = Done (Some (ErrExternal "close failed"))) /\
  (let w1 := snd (Stop (newServer [mkListener "0.0.0.0:10011" None])) in
   fst (Stop w1) = Done None /\
   shutdown (srv w1) = 1 /\
   shutdown (srv (snd (Stop w1))) = 2 /\
   snd (Stop w1) ≠ w1).
Proof.
  split; [reflexivity|]. cbv zeta.
  split; [reflexivity|]. split; [reflexivity|]. split; [reflexivity|].
  intros H. apply (f_equal (fun w => shutdown (srv w))) in H.
  vm_compute in H. discriminate H.
Qed.

(** C3, amended: on a server no [Stop] has reached, started or not, the first
    [Stop] sets the shutdown counter to 1 and closes the listeners in order.
    When every [Close] succeeds it goes on to stop the RPC server and the
    wallet and to close the quit channel, and returns nil: the state it
    leaves is the one written out below. When the [Close] of listener [k]
    fails, the listeners before it having closed, it returns that error at
    once: listeners [0] to [k] have been sent [Close] and nothing else has
    happened, so the listeners after [k] and the quit channel stay open. The
    second [Stop] returns nil, closes nothing and changes nothing but the
    shutdown counter. Over the two calls no listener is closed twice and the
    quit channel is not closed twice; when every [Close] succeeds each
    listener and the quit channel are closed exactly once. *)
Theorem Stop_twice (w : world) :
  shutdown (srv w) = 0 -> quit (srv w) = false ->
  let ls := listeners (srv w) in
  exists r1 w1,
    Stop w = (Done r1, w1) /\
    r1 = first_close_error ls /\
    (r1 = None ->
       (forall l, l ∈ ls -> closeErr l = None) /\
       w1 = with_srv (set_quit true)
              (with_trace
                 (fun t => t ++ (EvListenerClose <$> seq 0 (length ls))
                             ++ [EvRpcServerStop; EvWalletStop; EvCloseQuit])
                 (with_srv (set_shutdown 1) w))) /\
    (forall e, r1 = Some e ->
       exists k l,
         ls !! k = Some l /\ closeErr l = Some e /\
         (forall j l', (j < k)%nat -> ls !! j = Some l' -> closeErr l' = None) /\
         w1 = with_trace (fun t => t ++ (EvListenerClose <$> seq 0 (S k)))
                (with_srv (set_shutdown 1) w) /\
         quit (srv w1) = false /\
         (forall i, (k < i)%nat -> occurrences (EvListenerClose i) (trace w1)
                                   = occurrences (EvListenerClose i) (trace w)) /\
         occurrences EvCloseQuit (trace w1) = occurrences EvCloseQuit (trace w) /\
         occurrences EvRpcServerStop (trace w1) = occurrences EvRpcServerStop (trace w) /\
         occurrences EvWalletStop (trace w1) = occurrences EvWalletStop (trace w)) /\
    Stop w1 = (Done None, with_srv (set_shutdown 2) w1) /\
    (forall i, (occurrences (EvListenerClose i) (trace w1)
                <= occurrences (EvListenerClose i) (trace w) + 1)%nat) /\
    (occurrences EvCloseQuit (trace w1)
     <= occurrences EvCloseQuit (trace w) + 1)%nat /\
    ((forall l, l ∈ ls -> closeErr l = None) ->
       r1 = None /\
       quit (srv w1) = true /\
       (forall i, (i < length ls)%nat ->
          occurrences (EvListenerClose i) (trace w1)
          = (occurrences (EvListenerClose i) (trace w) + 1)%nat) /\
       occurrences EvCloseQuit (trace w1)
       = (occurrences EvCloseQuit (trace w) + 1)%nat).
Proof.
  intros Hsh Hq ls. pose proof (Stop_first w Hsh Hq) as H1. cbv zeta in H1.
  fold ls in H1.
  eexists _, _. split; [exact H1|]. split; [reflexivity|].
  assert (Hsh1 : shutdown (srv (match first_close_error ls with
      | Some _ => with_trace (fun t => t ++ (EvListenerClose <$> seq 0 (closes_made ls)))
                    (with_srv (set_shutdown 1) w)
      | None => with_srv (set_quit true)
                  (with_trace (fun t => t ++ (EvListenerClose <$> seq 0 (closes_made ls))
                                       ++ [EvRpcServerStop; EvWalletStop; EvCloseQuit])
                     (with_srv (set_shutdown 1) w))
      end)) = 1) by (by destruct (first_close_error ls)).
  split; [|split; [|split; [|split; [|split]]]].
  - intros Hnone. pose proof (first_close_error_None_inv ls Hnone) as Hall.
    split; [exact Hall|].
    destruct (first_close_error_None ls Hall) as [-> ->]. reflexivity.
  - intros e He. destruct (first_close_error_at ls e He) as (k & l & Hk & Hl & Hc & Hb).
    exists k, l. split; [exact Hk|]. split; [exact Hl|]. split; [exact Hb|].
    rewrite He, Hc. split; [reflexivity|].
    cbn [trace with_trace with_srv srv quit].
    split; [by destruct w as [[] ? ?]|].
    split; [|split; [|split]].
    + intros i Hi. rewrite occurrences_app.
      rewrite occurrences_close_seq_out by lia.
      destruct w as [[] ? ?]. cbn. lia.
    + rewrite occurrences_app, occurrences_other_close_seq by done.
      destruct w as [[] ? ?]. cbn. lia.
    + rewrite occurrences_app, occurrences_other_close_seq by done.
      destruct w as [[] ? ?]. cbn. lia.
    + rewrite occurrences_app, occurrences_other_close_seq by done.
      destruct w as [[] ? ?]. cbn. lia.
  - rewrite Stop_again; rewrite Hsh1; [reflexivity| |done].
    unfold is_int32. lia.
  - intros i. destruct (first_close_error ls); cbn [trace with_trace with_srv];
      rewrite ?occurrences_app.
    + pose proof (proj1 (occurrences_close_seq i 0 (closes_made ls))). lia.
    + pose proof (proj1 (occurrences_close_seq i 0 (closes_made ls))).
      change (occurrences (EvListenerClose i)
                [EvRpcServerStop; EvWalletStop; EvCloseQuit]) with 0%nat. lia.
  - destruct (first_close_error ls); cbn [trace with_trace with_srv];
      rewrite ?occurrences_app, occurrences_other_close_seq by done.
    + lia.
    + change (occurrences EvCloseQuit
                [EvRpcServerStop; EvWalletStop; EvCloseQuit]) with 1%nat. lia.
  - intros Hall. destruct (first_close_error_None ls Hall) as [-> ->].
    split; [reflexivity|]. split; [reflexivity|].
    cbn [trace with_trace with_srv]. split.
    + intros i Hi. rewrite !occurrences_app.
      rewrite occurrences_close_seq_in by lia.
      change (occurrences (EvListenerClose i)
                [EvRpcServerStop; EvWalletStop; EvCloseQuit]) with 0%nat. lia.
    + rewrite !occurrences_app, occurrences_other_close_seq by done.
      change (occurrences EvCloseQuit
                [EvRpcServerStop; EvWalletStop; EvCloseQuit]) with 1%nat. lia.
Qed.

Lemma Stop_twice_witness :
  let w := newServer [mkListener "0.0.0.0:10011" None;
                      mkListener "[::]:10011" (Some (ErrExternal "close failed"));
                      mkListener "10.0.0.1:10011" None] in
  exists w1,
    Stop w = (Done (Some (ErrExternal "close failed")), w1) /\
    trace w1 = [EvListenerClose 0; EvListenerClose 1] /\
    quit (srv w1) = false /\
    Stop w1 = (Done None, with_srv (set_shutdown 2) w1).
Proof.
  cbv zeta.
  destruct (Stop_twice
              (newServer [mkListener "0.0.0.0:10011" None;
                          mkListener "[::]:10011" (Some (ErrExternal "close failed"));
                          mkListener "10.0.0.1:10011" None])
              eq_refl eq_refl)
    as (r1 & w1 & HS & Hr & _ & _ & HS2 & _).
  exists w1. cbn in Hr. subst r1. split; [exact HS|].
  injection HS as <-. split; [reflexivity|]. split; [reflexivity|exact HS2].
Defined.

(** C1 at a failing dial: a connect request to a node no registered peer
    matches, whose dial fails. The caller gets the dial error, but the dial
    goroutine goes on past it: it builds the peer, queues it for the mutator
    and sends nil on the reply channel, so two values reach the reply channel,
    not one. *)
Theorem failed_dial_replies_twice_and_queues_peer :
  let a := mkLNAdr None [x6f; x01; x02] "10.0.0.2:10011" "mkh@10.0.0.2:10011" in
  let newp := mkPeer 1 a in
  let err := ErrExternal "connection refused" in
  let w := newServer [] in
  range_of (peers (srv w)) [] /\
  exists w',
    ConnectToPeer a [] (Some err) newp w = (Done (Some err), w') /\
    delivered 0 w' = [Some err; None] /\
    newPeers (srv w') = [Some newp] /\
    trace w' = [EvGo (GoDial (mkConnectPeerMsg a 0));
                EvDial "10.0.0.2:10011" [x6f; x01; x02];
                EvNewPeer 1].
Proof.
  cbv zeta. split.
  - unfold range_of. cbn [newServer srv peers]. by rewrite map_to_list_empty.
  - eexists. split; [vm_compute; reflexivity|]. by vm_compute.
Qed.

(** C2 at three matching peers: three registered peers render like the
    target. The caller gets the duplicate error, but the turn of the query
    processor parks on its third send to the reply channel, which holds one
    value and has no receiver left: no dial goroutine is launched, and the
    query processor handles no further query. *)
Theorem three_duplicates_park_queryHandler :
  let a := mkLNAdr None [x6f; x01; x02] "10.0.0.2:10011" "mkh@10.0.0.2:10011" in
  let p1 := mkPeer 1 a in
  let p2 := mkPeer 2 a in
  let p3 := mkPeer 3 a in
  let w := with_srv (set_peers (<[1 := p1]> (<[2 := p2]> (<[3 := p3]> ∅))))
             (newServer []) in
  let msg := mkConnectPeerMsg a 0 in
  let dup := Some (ErrAlreadyConnected a) in
  let w' := with_chans <[0%nat := mkChan 1 [dup] 0 [dup]]> w in
  range_of (peers (srv w)) [p1; p2; p3] /\
  queryHandler_turn (QhQuery (QConnectPeerMsg msg)) [p1; p2; p3]
    (with_chans <[0%nat := fresh_chan]> w) = (Parked, w') /\
  ConnectToPeer a [p1; p2; p3] None (mkPeer 4 a) w = (Done dup, w') /\
  trace w' = [] /\
  forall sched, queryHandler ((QhQuery (QConnectPeerMsg msg), [p1; p2; p3]) :: sched)
                  (with_chans <[0%nat := fresh_chan]> w) = (Parked, w').
Proof.
  cbv zeta. split; [|split; [|split; [|split]]].
  - unfold range_of. vm_compute.
    first [exact (Permutation_rev [_; _; _])
          |symmetry; exact (Permutation_rev [_; _; _])].
  - vm_compute. reflexivity.
  - vm_compute. reflexivity.
  - reflexivity.
  - intros sched. cbn [queryHandler].
    apply bind_Parked. vm_compute. reflexivity.
Qed.

End ServerSpec.

(** * More of the code *)

(** ** The wire messages *)

Module LnwireExtra.
Import Bytes BytesFacts Lnwire LnwireFacts.

(** X20: [CloseComplete.String] is safe on unset fields. When the signature
    pointer is nil, or points to a signature whose [R] is nil, [Serialize]
    is not called and nothing is rendered after "ResponderCloseSig:"; when
    the signature has both components, their serialization is rendered in
    hexadecimal. A nil hash pointer is rendered as the empty string, a hash
    as [wire.ShaHash.String] gives it. In all these states [String]
    returns. *)
Theorem CloseComplete_String_guards_unset_fields `{B : Btcd} (c : CloseComplete.t) :
  let render sig :=
    Returns
      ((nl +:+ "--- Begin CloseComplete ---" +:+ nl) +:+
       ("ReservationID:" +:+ tab +:+ tab +:+ fmt_d (CloseComplete.ReservationID c) +:+ nl) +:+
       ("ResponderCloseSig:" +:+ tab +:+ fmt_x sig +:+ nl) +:+
       ("CloseShaHash:" +:+ tab +:+ tab +:+ CloseComplete.shaString c +:+ nl) +:+
       ("--- End CloseComplete ---" +:+ nl)) in
  (CloseComplete.ResponderCloseSig c = None -> CloseComplete.String c = render []) /\
  (forall s, CloseComplete.ResponderCloseSig c = Some (mkSignature None s) ->
     CloseComplete.String c = render []) /\
  (forall r s, CloseComplete.ResponderCloseSig c = Some (mkSignature (Some r) (Some s)) ->
     CloseComplete.String c = render (SerializeRS r s)) /\
  (CloseComplete.CloseShaHash c = None -> CloseComplete.shaString c = EmptyString) /\
  (forall h, CloseComplete.CloseShaHash c = Some h ->
     CloseComplete.shaString c = ShaHashString h).
Proof.
  cbv zeta. unfold CloseComplete.String, CloseComplete.serializedSig,
    CloseComplete.shaString.
  split; [by intros ->|]. split; [by intros s ->|]. split; [by intros r s ->|].
  split; [by intros ->|by intros h ->].
Qed.

Lemma CloseComplete_String_guards_unset_fields_witness :
  let c := CloseComplete.mk 1 (Some (mkSignature None None)) None in
  @CloseComplete.String btcd_small c
  = Returns
      ((nl +:+ "--- Begin CloseComplete ---" +:+ nl) +:+
       ("ReservationID:" +:+ tab +:+ tab +:+ "1" +:+ nl) +:+
       ("ResponderCloseSig:" +:+ tab +:+ EmptyString +:+ nl) +:+
       ("CloseShaHash:" +:+ tab +:+ tab +:+ EmptyString +:+ nl) +:+
       ("--- End CloseComplete ---" +:+ nl)).
Proof.
  cbv zeta.
  exact (proj1 (proj2 (@CloseComplete_String_guards_unset_fields btcd_small
                         (CloseComplete.mk 1 (Some (mkSignature None None)) None)))
           None eq_refl).
Defined.

End LnwireExtra.

(** ** The connection manager *)

Module ServerExtra.
Import Server ServerFacts ServerMore.

(** *** Which fields each operation writes *)

Lemma touches_only_ret {A} (erase : server -> server) (a : A) :
  touches_only erase (mret a).
Proof. by intros w. Qed.

Lemma touches_only_bind {A B} (erase : server -> server) (m : M A) (k : A -> M B) :
  touches_only erase m -> (forall a, touches_only erase (k a)) ->
  touches_only erase (m ≫= k).
Proof.
  intros Hm Hk w. unfold mbind, M_bind. specialize (Hm w).
  destruct (m w) as [[a| |] w']; cbn in *; [|done..].
  by rewrite (Hk a w').
Qed.

Lemma touches_only_srv_same {A} (erase : server -> server) (m : M A) :
  (forall w, srv (snd (m w)) = srv w) -> touches_only erase m.
Proof. intros H w. by rewrite H. Qed.

Lemma touches_only_aside {A} (erase : server -> server) (m : M A) :
  touches_only erase m -> touches_only erase (aside m).
Proof. intros Hm w. unfold aside. specialize (Hm w). by destruct (m w). Qed.

Lemma touches_only_forM_ {A} (erase : server -> server) (xs : list A)
    (body : A -> M unit) :
  (forall x, touches_only erase (body x)) -> touches_only erase (forM_ xs body).
Proof.
  intros Hb. induction xs as [|x xs IH]; [apply touches_only_ret|].
  cbn [forM_]. apply touches_only_bind; [apply Hb|by intros _].
Qed.

Lemma chan_send_srv (c : nat) (v : option error) (w : world) :
  srv (snd (chan_send c v w)) = srv w.
Proof.
  unfold chan_send; unfold_M. destruct (chans w !! c) as [ch|]; [|done].
  by repeat destruct (decide _).
Qed.

Lemma newPeers_send_touches (p : option peer) :
  touches_only only_newPeers (newPeers_send p).
Proof.
  intros w. unfold newPeers_send; unfold_M.
  destruct (decide _); [|done]. by destruct w as [[] ? ?].
Qed.

Lemma dupScan_srv (msg : connectPeerMsg) (iter : list peer) (w : world) :
  srv (snd (dupScan msg iter w)) = srv w.
Proof.
  revert w. induction iter as [|p iter IH]; intros w; [done|].
  cbn [dupScan]. unfold mbind, M_bind.
  destruct (decide _).
  - pose proof (chan_send_srv (reply msg)
                  (Some (ErrAlreadyConnected (lightningAddr p))) w) as H.
    destruct (chan_send _ _ w) as [[[]| |] w']; cbn in *; [|done..].
    by rewrite IH.
  - cbn. apply IH.
Qed.

Lemma queryHandler_turn_srv (c : qh_case) (iter : list peer) (w : world) :
  srv (snd (queryHandler_turn c iter w)) = srv w.
Proof.
  destruct c as [[msg|ty]|]; cbn [queryHandler_turn].
  - unfold mbind, M_bind. pose proof (dupScan_srv msg iter w) as H.
    by destruct (dupScan msg iter w) as [[[]| |] w'].
  - done.
  - unfold quit_recv; unfold_M. by destruct (quit (srv w)).
Qed.

Lemma dial_touches (msg : connectPeerMsg) (dialErr : option error) (newp : peer) :
  touches_only only_newPeers (dial msg dialErr newp).
Proof.
  unfold dial.
  apply touches_only_bind; [by apply touches_only_srv_same|intros _].
  apply touches_only_bind.
  { destruct dialErr; apply touches_only_srv_same; [apply chan_send_srv|done]. }
  intros _. apply touches_only_bind; [by apply touches_only_srv_same|intros _].
  apply touches_only_bind; [apply newPeers_send_touches|intros _].
  apply touches_only_srv_same, chan_send_srv.
Qed.

Lemma ConnectToPeer_touches (a : LNAdr) (iter : list peer)
    (dialErr : option error) (newp : peer) :
  touches_only only_newPeers (ConnectToPeer a iter dialErr newp).
Proof.
  unfold ConnectToPeer.
  apply touches_only_bind; [by apply touches_only_srv_same|intros c].
  apply touches_only_bind.
  { apply touches_only_aside, touches_only_srv_same, queryHandler_turn_srv. }
  intros r. apply touches_only_bind.
  { destruct r; [|apply touches_only_ret..].
    apply touches_only_bind; [apply touches_only_aside, dial_touches|].
    intros _. apply touches_only_ret. }
  intros _. apply touches_only_srv_same. intros w.
  unfold reply_recv; unfold_M.
  destruct (chans w !! c) as [ch|]; [|done]. by destruct (handed ch).
Qed.

(** What [only_newPeers] leaves alone. *)
Lemma only_newPeers_same (s s' : server) :
  only_newPeers s' = only_newPeers s ->
  peers s' = peers s /\ shutdown s' = shutdown s /\ started s' = started s /\
  wg s' = wg s /\ quit s' = quit s /\ listeners s' = listeners s /\
  donePeers s' = donePeers s.
Proof.
  destruct s, s'. unfold only_newPeers, set_newPeers. cbn.
  intros H. by injection H as -> -> -> -> -> -> ->.
Qed.


(** *** The new-peer queue *)

Lemma AddPeer_room (p : option peer) (w : world) :
  (length (newPeers (srv w)) < newPeers_cap)%nat ->
  AddPeer p w = (Done tt, with_srv (fun s => set_newPeers (newPeers s ++ [p]) s) w).
Proof.
  intros Hroom. unfold AddPeer, newPeers_send; unfold_M.
  by rewrite decide_True.
Qed.

Lemma AddPeer_all (ps : list (option peer)) (w : world) :
  (length (newPeers (srv w)) + length ps <= newPeers_cap)%nat ->
  forM_ ps AddPeer w
  = (Done tt, with_srv (fun s => set_newPeers (newPeers s ++ ps) s) w).
Proof.
  revert w. induction ps as [|p ps IH]; intros w Hlen.
  - cbn. destruct w as [[] ? ?]. unfold with_srv, set_newPeers. cbn.
    by rewrite app_nil_r.
  - cbn [forM_ length] in *.
    rewrite (bind_Done _ _ _ _ _ (AddPeer_room p w ltac:(lia))).
    rewrite IH.
    + destruct w as [[] ? ?]. unfold with_srv, set_newPeers. cbn.
      by rewrite <- app_assoc.
    + destruct w as [[] ? ?]. cbn in *. rewrite length_app. cbn. lia.
Qed.

(** One new-peer turn of the mutator. *)
Lemma peerManager_turn_newPeer (p : option peer) (q : list (option peer)) (w : world) :
  newPeers (srv w) = p :: q ->
  peerManager_turn PmNewPeer w
  = (Done Continue,
     match p with
     | None => with_srv (set_newPeers q) w
     | Some p =>
         if decide (shutdown (srv w) ≠ 0)
         then with_trace (fun t => t ++ [EvPeerStop (peerID p)])
                (with_srv (set_newPeers q) w)
         else with_srv (fun s => set_peers (<[peerID p := p]> (peers s)) s)
                (with_srv (set_newPeers q) w)
     end).
Proof.
  intros Hq. destruct w as [[st sh ls ps np dp g qt] ch tr]. cbn in Hq. subst np.
  unfold peerManager_turn, newPeers_recv, addPeer; unfold_M. cbn.
  destruct p as [p|]; [|reflexivity]. cbn.
  by destruct (decide (sh ≠ 0)).
Qed.

(** The mutator taking everything off the new-peer queue. *)
Lemma peerManager_drain (q : list (option peer)) (sched : list pm_case) (w : world) :
  newPeers (srv w) = q ->
  peerManager (replicate (length q) PmNewPeer ++ sched) w
  = peerManager sched
      (if decide (shutdown (srv w) ≠ 0)
       then with_trace (fun t => t ++ ((fun p => EvPeerStop (peerID p)) <$> non_nil q))
              (with_srv (set_newPeers []) w)
       else with_srv (fun s => set_peers (register (peers s) (non_nil q)) s)
              (with_srv (set_newPeers []) w)).
Proof.
  revert w. induction q as [|p q IH]; intros w Hq.
  - cbn. destruct w as [[st sh ls ps np dp g qt] ch tr]. cbn in Hq. subst np.
    destruct (decide _); unfold with_trace, with_srv, set_newPeers, set_peers; cbn;
      by rewrite ?app_nil_r.
  - cbn [length replicate app peerManager].
    rewrite (bind_Done _ _ _ _ _ (peerManager_turn_newPeer p q w Hq)).
    destruct w as [[st sh ls ps np dp g qt] ch tr]. cbn in Hq. subst np.
    destruct p as [p|]; cbn [srv shutdown].
    + destruct (decide (sh ≠ 0)) as [Hs|Hs].
      * rewrite IH by done. cbn [srv shutdown with_trace with_srv set_newPeers].
        rewrite decide_True by done.
        unfold with_trace, with_srv, set_newPeers. cbn. by rewrite <- app_assoc.
      * rewrite IH by done. cbn [srv shutdown with_trace with_srv set_newPeers set_peers].
        by rewrite decide_False by done.
    + rewrite IH by done. cbn [srv shutdown with_srv set_newPeers].
      by destruct (decide (sh ≠ 0)).
Qed.

(** X2: peers handed to [AddPeer] are registered by the mutator in the order
    they were handed over, each under its own identifier, nil pointers being
    skipped: of two peers with one identifier the later one stays. *)
Theorem AddPeer_then_mutator_registers_in_order
    (ps : list (option peer)) (sched : list pm_case) (w : world) :
  shutdown (srv w) = 0 -> newPeers (srv w) = [] ->
  (length ps <= newPeers_cap)%nat ->
  (forM_ ps AddPeer ≫= fun _ =>
     peerManager (replicate (length ps) PmNewPeer ++ sched)) w
  = peerManager sched
      (with_srv (fun s => set_peers (register (peers s) (non_nil ps)) s) w).
Proof.
  intros Hsh Hq Hlen.
  rewrite (bind_Done _ _ _ _ _ (AddPeer_all ps w ltac:(rewrite Hq; cbn; lia))).
  rewrite (peerManager_drain ps) by (destruct w as [[] ? ?]; cbn in *; by subst).
  destruct w as [[st sh ls pm np dp g qt] ch tr]. cbn in *. subst.
  by rewrite decide_False by (intros H; by apply H).
Qed.

Lemma AddPeer_then_mutator_registers_in_order_witness :
  let a := mkLNAdr None [x01] "10.0.0.1:10011" "pkh@10.0.0.1:10011" in
  let b := mkLNAdr None [x02] "10.0.0.2:10011" "pkh@10.0.0.2:10011" in
  let ps := [Some (mkPeer 7 a); None; Some (mkPeer 7 b)] in
  let w := newServer [] in
  (forM_ ps AddPeer ≫= fun _ => peerManager (replicate 3 PmNewPeer ++ [])) w
  = peerManager []
      (with_srv (set_peers (<[7 := mkPeer 7 b]> (<[7 := mkPeer 7 a]> ∅))) w).
Proof.
  cbv zeta.
  apply (AddPeer_then_mutator_registers_in_order
           [Some (mkPeer 7 _); None; Some (mkPeer 7 _)] [] (newServer [])).
  - reflexivity.
  - reflexivity.
  - unfold newPeers_cap. cbn. lia.
Defined.

(** X3: once the shutdown flag is set, the mutator registers nothing: every
    peer it takes off the new-peer queue is stopped, in queue order, and the
    peer map stays as it was. *)
Theorem mutator_stops_queued_peers_during_shutdown
    (q : list (option peer)) (sched : list pm_case) (w : world) :
  shutdown (srv w) ≠ 0 -> newPeers (srv w) = q ->
  peerManager (replicate (length q) PmNewPeer ++ sched) w
  = peerManager sched
      (with_trace (fun t => t ++ ((fun p => EvPeerStop (peerID p)) <$> non_nil q))
         (with_srv (set_newPeers []) w)) /\
  peers (srv (with_trace
                (fun t => t ++ ((fun p => EvPeerStop (peerID p)) <$> non_nil q))
                (with_srv (set_newPeers []) w))) = peers (srv w).
Proof.
  intros Hsh Hq. split; [|reflexivity].
  rewrite (peerManager_drain q) by done. by rewrite decide_True.
Qed.

Lemma mutator_stops_queued_peers_during_shutdown_witness :
  let a := mkLNAdr None [x01] "10.0.0.1:10011" "pkh@10.0.0.1:10011" in
  let q := [Some (mkPeer 7 a); None; Some (mkPeer 8 a)] in
  let w := with_srv (fun s => set_shutdown 1 (set_newPeers q s)) (newServer []) in
  peerManager (replicate 3 PmNewPeer ++ [PmQuit]) w
  = peerManager [PmQuit]
      (with_trace (fun t => t ++ [EvPeerStop 7; EvPeerStop 8])
         (with_srv (set_newPeers []) w)).
Proof.
  cbv zeta.
  refine (proj1 (mutator_stops_queued_peers_during_shutdown
                   [Some (mkPeer 7 _); None; Some (mkPeer 8 _)] [PmQuit] _ _ _)).
  - cbn. lia.
  - reflexivity.
Defined.

(** The turns of the mutator leave the wait group and the quit channel
    alone. *)
Lemma peerManager_turn_wg_quit (c : pm_case) (w w' : world) (r : outcome ctl) :
  peerManager_turn c w = (r, w') ->
  wg (srv w') = wg (srv w) /\ quit (srv w') = quit (srv w) /\
  (r = Done Break -> quit (srv w) = true).
Proof.
  destruct w as [[st sh ls ps np dp g qt] ch tr].
  destruct c; unfold peerManager_turn, newPeers_recv, donePeers_recv, quit_recv,
      addPeer, removePeer; unfold_M; cbn.
  - destruct np as [|[p|] np]; cbn; try destruct (decide (sh ≠ 0));
      intros [= <- <-]; by repeat split.
  - destruct dp as [|p dp]; cbn; intros [= <- <-]; by repeat split.
  - destruct qt; cbn; intros [= <- <-]; by repeat split.
Qed.

(** *** Connect requests *)

Lemma range_of_registered (m : gmap Z peer) (iter : list peer) (p : peer) :
  range_of m iter -> p ∈ iter <-> exists k, m !! k = Some p.
Proof.
  unfold range_of. intros Hperm. rewrite Hperm, list_elem_of_fmap. split.
  - intros ([k p'] & -> & Hin). exists k. by apply elem_of_map_to_list.
  - intros [k Hk]. exists (k, p). split; [done|]. by apply elem_of_map_to_list.
Qed.

Lemma ConnectToPeer_first_match (a : LNAdr) (iter : list peer)
    (dialErr : option error) (newp : peer) (w : world) (p1 : peer) (rest : list peer) :
  matching a iter = p1 :: rest ->
  fst (ConnectToPeer a iter dialErr newp w)
  = Done (Some (ErrAlreadyConnected (lightningAddr p1))).
Proof.
  intros Hm. destruct rest as [|p2 [|p3 rest]].
  - destruct (ConnectToPeer_duplicate a iter dialErr newp w p1 [] Hm ltac:(cbn; lia))
      as (w' & -> & _). reflexivity.
  - destruct (ConnectToPeer_duplicate a iter dialErr newp w p1 [p2] Hm ltac:(cbn; lia))
      as (w' & -> & _). reflexivity.
  - destruct (ConnectToPeer_three_duplicates a iter dialErr newp w p1 p2 p3 rest Hm)
      as (_ & -> & _). reflexivity.
Qed.

Lemma matching_nonempty (a : LNAdr) (iter : list peer) (p : peer) :
  p ∈ iter -> LNAdr_String (lightningAddr p) = LNAdr_String a ->
  exists p1 rest, matching a iter = p1 :: rest.
Proof.
  intros Hin Ha.
  assert (Hm : p ∈ matching a iter) by (by apply list_elem_of_filter).
  destruct (matching a iter) as [|p1 rest]; [by apply elem_of_nil in Hm|eauto].
Qed.

(** The turn of the query processor for a connect request gets through the
    scan exactly when at most two peers match. *)
Lemma queryHandler_turn_outcome (a : LNAdr) (iter : list peer) (w : world) :
  let c := fresh (dom (chans w)) in
  fst (queryHandler_turn (QhQuery (QConnectPeerMsg (mkConnectPeerMsg a c))) iter
         (with_chans <[c := fresh_chan]> w))
  = if decide (length (matching a iter) <= 2)%nat then Done Continue else Parked.
Proof.
  intros c. set (msg := mkConnectPeerMsg a c).
  pose proof (dupScan_matching msg iter (with_chans <[c := fresh_chan]> w)) as Hs.
  cbn [addr msg] in Hs.
  rewrite (dupScan_on_matches msg (matching a iter)) in Hs;
    [|by apply (matching_addr a iter)|apply chans_with_chans_insert].
  destruct (matching a iter) as [|p1 [|p2 [|p3 rest]]]; cbn [length].
  - rewrite decide_True by lia. by rewrite (queryHandler_turn_connect _ _ _ _ Hs).
  - rewrite decide_True by lia. by rewrite (queryHandler_turn_connect _ _ _ _ Hs).
  - rewrite decide_True by lia. by rewrite (queryHandler_turn_connect _ _ _ _ Hs).
  - rewrite decide_False by lia.
    by rewrite (queryHandler_turn_connect_parked _ _ _ _ Hs).
Qed.

(** A request the query processor receives. *)
Lemma ConnectToPeer_served_receiving (a : LNAdr) (iter : list peer)
    (dialErr : option error) (newp : peer) (x : sworld) :
  qh x = QhReceiving ->
  ConnectToPeer_served a iter dialErr newp x
  = (fst (ConnectToPeer a iter dialErr newp (sw x)),
     mkSworld (snd (ConnectToPeer a iter dialErr newp (sw x)))
       (if decide (length (matching a iter) <= 2)%nat then QhReceiving else QhAway)).
Proof.
  intros Hq. unfold ConnectToPeer_served. rewrite Hq.
  rewrite queryHandler_turn_outcome.
  destruct (ConnectToPeer a iter dialErr newp (sw x)) as [r w'].
  cbn [fst snd]. by destruct (decide (length (matching a iter) <= 2)%nat).
Qed.

(** A request made while the query processor is away. *)
Lemma ConnectToPeer_served_away (a : LNAdr) (iter : list peer)
    (dialErr : option error) (newp : peer) (x : sworld) :
  qh x = QhAway -> ConnectToPeer_served a iter dialErr newp x = (Parked, x).
Proof. intros Hq. unfold ConnectToPeer_served. by rewrite Hq. Qed.

(** X4: on a server whose query processor is receiving and whose quit
    channel is open, a connect request
    for a node that some registered peer matches is answered with an
    already-connected error, whatever the dial does and however many peers
    match; the error names the first matching peer in the order the scan
    ranges over the map, and that peer is registered and renders like the
    target. With at most two matches the query processor is receiving again
    afterwards; with three or more it is not, and every later request waits
    on the query queue for ever. *)
Theorem ConnectToPeer_reports_a_registered_match
    (a : LNAdr) (iter : list peer) (dialErr : option error) (newp : peer)
    (x : sworld) (p : peer) :
  qh x = QhReceiving -> quit (srv (sw x)) = false ->
  range_of (peers (srv (sw x))) iter -> p ∈ iter ->
  LNAdr_String (lightningAddr p) = LNAdr_String a ->
  exists p1 x',
    ConnectToPeer_served a iter dialErr newp x
    = (Done (Some (ErrAlreadyConnected (lightningAddr p1))), x') /\
    LNAdr_String (lightningAddr p1) = LNAdr_String a /\
    (exists k, peers (srv (sw x)) !! k = Some p1) /\
    hd_error (matching a iter) = Some p1 /\
    qh x' = (if decide (length (matching a iter) <= 2)%nat
             then QhReceiving else QhAway) /\
    ((2 < length (matching a iter))%nat ->
       forall a' iter' dialErr' newp',
         ConnectToPeer_served a' iter' dialErr' newp' x' = (Parked, x')).
Proof.
  intros Hq _ Hrange Hin Ha.
  destruct (matching_nonempty a iter p Hin Ha) as (p1 & rest & Hm).
  pose proof (ConnectToPeer_first_match a iter dialErr newp (sw x) p1 rest Hm) as HC.
  exists p1. eexists. split.
  { rewrite (ConnectToPeer_served_receiving _ _ _ _ _ Hq), HC. reflexivity. }
  assert (Hp1 : p1 ∈ matching a iter) by (rewrite Hm; left).
  apply matching_all in Hp1 as [Hp1 Ha1].
  split; [done|]. split; [by apply (range_of_registered _ iter)|].
  split; [by rewrite Hm|]. split; [reflexivity|].
  intros Hlen a' iter' dialErr' newp'.
  apply ConnectToPeer_served_away. cbn [qh].
  by rewrite decide_False by lia.
Qed.

Lemma ConnectToPeer_reports_a_registered_match_witness :
  let a := mkLNAdr None [x01] "10.0.0.1:10011" "pkh@10.0.0.1:10011" in
  let p := mkPeer 7 a in
  let x := with_peers {[ 7 := p ]} (started_server []) in
  exists x',
    ConnectToPeer_served a [p] (Some (ErrExternal "refused")) (mkPeer 8 a) x
    = (Done (Some (ErrAlreadyConnected a)), x') /\
    qh x' = QhReceiving.
Proof.
  cbv zeta.
  destruct (ConnectToPeer_reports_a_registered_match
              (mkLNAdr None [x01] "10.0.0.1:10011" "pkh@10.0.0.1:10011")
              [mkPeer 7 (mkLNAdr None [x01] "10.0.0.1:10011" "pkh@10.0.0.1:10011")]
              (Some (ErrExternal "refused"))
              (mkPeer 8 (mkLNAdr None [x01] "10.0.0.1:10011" "pkh@10.0.0.1:10011"))
              (with_peers {[ 7 := mkPeer 7 (mkLNAdr None [x01] "10.0.0.1:10011"
                                              "pkh@10.0.0.1:10011") ]}
                 (started_server []))
              (mkPeer 7 (mkLNAdr None [x01] "10.0.0.1:10011" "pkh@10.0.0.1:10011")))
    as (p1 & x' & HC & _ & _ & Hhd & Hq & _).
  - reflexivity.
  - reflexivity.
  - unfold range_of. vm_compute. reflexivity.
  - by left.
  - reflexivity.
  - exists x'. vm_compute in Hhd. injection Hhd as <-.
    split; [exact HC|exact Hq].
Defined.

(** A request that dials through, the mutator's next turn, and a request
    after that. *)
Lemma connect_register_duplicate
    (a : LNAdr) (iter : list peer) (newp : peer) (w : world) :
  shutdown (srv w) = 0 -> newPeers (srv w) = [] -> matching a iter = [] ->
  exists w1 w2,
    ConnectToPeer a iter None newp w = (Done None, w1) /\
    peers (srv w1) = peers (srv w) /\
    peerManager_turn PmNewPeer w1 = (Done Continue, w2) /\
    peers (srv w2) = <[peerID newp := newp]> (peers (srv w)) /\
    forall a' iter' dialErr' newp',
      range_of (peers (srv w2)) iter' ->
      LNAdr_String (lightningAddr newp) = LNAdr_String a' ->
      exists p1,
        fst (ConnectToPeer a' iter' dialErr' newp' w2)
        = Done (Some (ErrAlreadyConnected (lightningAddr p1))) /\
        LNAdr_String (lightningAddr p1) = LNAdr_String a'.
Proof.
  intros Hsh Hq Hm.
  destruct (ConnectToPeer_no_duplicate a iter None newp w Hm
              ltac:(rewrite Hq; unfold newPeers_cap; cbn; lia))
    as (w1 & HC & _ & Hq1 & _).
  rewrite Hq in Hq1. cbn [app] in Hq1.
  pose proof (ConnectToPeer_touches a iter None newp w) as Ht.
  rewrite HC in Ht. cbn [snd] in Ht.
  apply only_newPeers_same in Ht as (Hp & Hsh1 & _).
  pose proof (peerManager_turn_newPeer (Some newp) [] w1 Hq1) as Hturn.
  cbv beta iota in Hturn.
  rewrite decide_False in Hturn by (rewrite Hsh1, Hsh; intros H; by apply H).
  eexists w1, _. split; [exact HC|]. split; [exact Hp|]. split; [exact Hturn|].
  split; [cbn; by rewrite Hp|].
  intros a' iter' dialErr' newp' Hrange Ha'.
  assert (Hin : newp ∈ iter').
  { apply (range_of_registered _ _ _ Hrange). exists (peerID newp).
    cbn. apply lookup_insert_eq. }
  destruct (matching_nonempty a' iter' newp Hin Ha') as (p1 & rest & Hm').
  exists p1. split; [by eapply ConnectToPeer_first_match|].
  assert (Hp1 : p1 ∈ matching a' iter') by (rewrite Hm'; left).
  by apply matching_all in Hp1 as [_ ?].
Qed.



Lemma bind_newPeers_send_full {B} (p : option peer) (k : unit -> M B) (w : world) :
  (newPeers_cap <= length (newPeers (srv w)))%nat ->
  (newPeers_send p ≫= k) w = (Parked, w).
Proof.
  intros Hfull. unfold newPeers_send; unfold_M.
  by rewrite decide_False by lia.
Qed.

(** X6: the dial goroutine sends its nil reply only after it has queued the
    new peer. Whatever the state it runs in, if a dial that went through has
    put anything on the reply channel, the peer is on the new-peer queue; and
    as long as the queue has no room, nothing reaches the reply channel and
    the queue is as it was. The connection has been dialled and the peer
    built in either case. *)
Theorem dial_replies_nil_only_after_queueing
    (msg : connectPeerMsg) (newp : peer) (w : world) :
  let w' := snd (dial msg None newp w) in
  (delivered (reply msg) w' ≠ delivered (reply msg) w ->
     (length (newPeers (srv w)) < newPeers_cap)%nat /\
     newPeers (srv w') = newPeers (srv w) ++ [Some newp]) /\
  ((newPeers_cap <= length (newPeers (srv w)))%nat ->
     fst (dial msg None newp w) ≠ Done tt /\
     delivered (reply msg) w' = delivered (reply msg) w /\
     newPeers (srv w') = newPeers (srv w)) /\
  trace w' = trace w ++ [EvDial (NetAddr (addr msg)) (remoteID_of (addr msg));
                         EvNewPeer (peerID newp)].
Proof.
  cbv zeta. unfold dial. fold (remoteID_of (addr msg)).
  rewrite bind_emit, bind_ret, bind_emit.
  destruct (decide (length (newPeers (srv w)) < newPeers_cap)%nat) as [Hroom|Hfull].
  - rewrite bind_newPeers_send by exact Hroom.
    set (w1 := with_srv _ _).
    pose proof (chan_send_srv (reply msg) None w1) as Hsrv.
    assert (Htr : trace (snd (chan_send (reply msg) None w1)) = trace w1).
    { unfold chan_send; unfold_M. destruct (chans w1 !! reply msg) as [ch|]; [|done].
      destruct (decide (0 < waiting ch)%nat); [done|].
      by destruct (decide (length (buffered ch) < cap ch)%nat). }
    split; [|split].
    + intros _. split; [exact Hroom|]. rewrite Hsrv. reflexivity.
    + intros Hfull. lia.
    + rewrite Htr. subst w1. destruct w as [s ch tr]. cbn.
      by rewrite <- !app_assoc.
  - rewrite bind_newPeers_send_full
      by (destruct w as [? ? ?]; cbn in *; lia).
    cbn [fst snd].
    split; [|split].
    + intros Hne. exfalso. apply Hne. reflexivity.
    + intros _. split; [discriminate|]. split; reflexivity.
    + destruct w as [s ch tr]. cbn. by rewrite <- !app_assoc.
Qed.

Lemma dial_replies_nil_only_after_queueing_witness :
  let a := mkLNAdr None [x01] "10.0.0.1:10011" "pkh@10.0.0.1:10011" in
  let msg := mkConnectPeerMsg a 0 in
  let w := with_chans <[0%nat := fresh_chan]>
             (with_srv (set_newPeers (replicate 100 None)) (newServer [])) in
  let w' := snd (dial msg None (mkPeer 1 a) w) in
  fst (dial msg None (mkPeer 1 a) w) ≠ Done tt /\
  delivered 0 w' = delivered 0 w /\
  newPeers (srv w') = newPeers (srv w).
Proof.
  cbv zeta.
  apply (proj1 (proj2 (dial_replies_nil_only_after_queueing
           (mkConnectPeerMsg (mkLNAdr None [x01] "10.0.0.1:10011" "pkh@10.0.0.1:10011") 0)
           (mkPeer 1 (mkLNAdr None [x01] "10.0.0.1:10011" "pkh@10.0.0.1:10011"))
           (with_chans <[0%nat := fresh_chan]>
              (with_srv (set_newPeers (replicate 100 None)) (newServer [])))))).
  cbn [srv with_srv with_chans set_newPeers newPeers newServer].
  rewrite length_replicate. unfold newPeers_cap. lia.
Defined.

(** The dial goroutine after the scan has reported one or two duplicates. *)
Lemma dial_after_duplicates (msg : connectPeerMsg) (newp : peer) (w : world)
    (d1 : option error) (b : list (option error)) :
  chans w !! reply msg = Some (mkChan 1 b 0 [d1]) ->
  (length b <= 1)%nat ->
  (length (newPeers (srv w)) < newPeers_cap)%nat ->
  dial msg None newp w
  = (match b with [] => Done tt | _ => Parked end,
     with_chans <[reply msg := mkChan 1 (match b with [] => [None] | _ => b end) 0 [d1]]>
       (with_srv (fun s => set_newPeers (newPeers s ++ [Some newp]) s)
          (with_trace
             (fun t => t ++ [EvDial (NetAddr (addr msg)) (remoteID_of (addr msg));
                             EvNewPeer (peerID newp)])
             w))).
Proof.
  intros Hc Hb Hroom. unfold dial. fold (remoteID_of (addr msg)).
  rewrite bind_emit, bind_ret, bind_emit, bind_newPeers_send by exact Hroom.
  destruct b as [|d2 [|? ?]]; [| |cbn in Hb; lia].
  - erewrite (chan_send_buffer _ _ _ (mkChan 1 [] 0 [d1]));
      [|exact Hc|reflexivity|cbn; lia].
    destruct w as [s ch tr]. unfold with_chans, with_srv, with_trace. cbn.
    by rewrite <- app_assoc.
  - erewrite (chan_send_park _ _ _ (mkChan 1 [d2] 0 [d1]));
      [|exact Hc|reflexivity|cbn; lia].
    destruct w as [s ch tr]. unfold with_chans, with_srv, with_trace. cbn in *.
    rewrite <- app_assoc. cbn. do 2 f_equal. symmetry. by apply insert_id.
Qed.

(** A request that finds one or two matches, served to its end. *)
Lemma duplicate_reported_and_dialled
    (a : LNAdr) (iter : list peer) (newp : peer) (w : world)
    (p1 : peer) (rest : list peer) :
  matching a iter = p1 :: rest -> (length rest <= 1)%nat ->
  (length (newPeers (srv w)) < newPeers_cap)%nat ->
  let c := fresh (dom (chans w)) in
  let dup p := Some (ErrAlreadyConnected (lightningAddr p)) in
  exists w',
    ConnectToPeer a iter None newp w = (Done (dup p1), w') /\
    newPeers (srv w') = newPeers (srv w) ++ [Some newp] /\
    delivered c w' = match rest with
                     | [] => [dup p1; None]
                     | p2 :: _ => [dup p1; dup p2]
                     end /\
    fst (dial (mkConnectPeerMsg a c) None newp
           (with_trace (fun t => t ++ [EvGo (GoDial (mkConnectPeerMsg a c))])
              (with_chans
                 <[c := mkChan 1 (match rest with [] => [] | p2 :: _ => [dup p2] end)
                                 0 [dup p1]]> w)))
    = match rest with [] => Done tt | _ => Parked end.
Proof.
  intros Hm Hlen Hroom c dup. set (msg := mkConnectPeerMsg a c).
  set (w1 := with_chans <[c := fresh_chan]> w).
  set (b := match rest with [] => [] | p2 :: _ => [dup p2] end).
  assert (Hscan : dupScan msg iter w1
                  = (Done tt, with_chans <[c := mkChan 1 b 0 [dup p1]]> w)).
  { rewrite dupScan_matching. cbn [addr msg]. rewrite Hm.
    rewrite dupScan_on_matches;
      [|by apply (matching_addr a iter)|apply chans_with_chans_insert].
    subst w1 b. cbn [reply msg].
    destruct rest as [|p2 [|p3 rest]]; [| |cbn in Hlen; lia];
      by rewrite with_chans_insert_insert. }
  rewrite (ConnectToPeer_scan_done a iter None newp w _ Hscan). fold c msg.
  assert (Hb : (length b <= 1)%nat) by (subst b; destruct rest; cbn; lia).
  rewrite (dial_after_duplicates msg newp _ (dup p1) b);
    [|cbn [chans with_trace with_chans reply msg]; apply lookup_insert_eq
     |exact Hb|exact Hroom].
  cbn [snd fst reply msg].
  eexists. split; [|split; [|split]].
  - eapply reply_recv_eq; [apply chans_with_chans_insert|reflexivity].
  - reflexivity.
  - unfold delivered. rewrite chans_with_chans_insert. cbn [handed buffered].
    subst b. by destruct rest.
  - subst b. by destruct rest.
Qed.

(** X17: on a server whose query processor is receiving and whose quit
    channel is open, a connect request
    that finds one or two registered peers matching the target returns the
    already-connected error, and yet the node dials: when the dial goes
    through, the new peer is queued for registration all the same, and the
    query processor is receiving again. With one match the nil reply follows
    the error onto the reply channel, where nobody reads it; with two matches
    the channel is full and the dial goroutine parks on its reply for ever,
    the peer already queued. *)
Theorem duplicate_is_reported_but_still_dialled
    (a : LNAdr) (iter : list peer) (newp : peer) (x : sworld)
    (p1 : peer) (rest : list peer) :
  qh x = QhReceiving -> quit (srv (sw x)) = false ->
  matching a iter = p1 :: rest -> (length rest <= 1)%nat ->
  (length (newPeers (srv (sw x))) < newPeers_cap)%nat ->
  let w := sw x in
  let c := fresh (dom (chans w)) in
  let dup p := Some (ErrAlreadyConnected (lightningAddr p)) in
  exists x',
    ConnectToPeer_served a iter None newp x = (Done (dup p1), x') /\
    qh x' = QhReceiving /\
    newPeers (srv (sw x')) = newPeers (srv w) ++ [Some newp] /\
    delivered c (sw x') = match rest with
                          | [] => [dup p1; None]
                          | p2 :: _ => [dup p1; dup p2]
                          end /\
    fst (dial (mkConnectPeerMsg a c) None newp
           (with_trace (fun t => t ++ [EvGo (GoDial (mkConnectPeerMsg a c))])
              (with_chans
                 <[c := mkChan 1 (match rest with [] => [] | p2 :: _ => [dup p2] end)
                                 0 [dup p1]]> w)))
    = match rest with [] => Done tt | _ => Parked end.
Proof.
  intros Hq _ Hm Hlen Hroom w c dup.
  destruct (duplicate_reported_and_dialled a iter newp (sw x) p1 rest Hm Hlen Hroom)
    as (w' & HC & Hnp & Hd & Hdial).
  eexists. split.
  { rewrite (ConnectToPeer_served_receiving _ _ _ _ _ Hq), HC. reflexivity. }
  cbn [qh sw]. rewrite Hm. cbn [length].
  rewrite decide_True by lia.
  split; [reflexivity|]. split; [exact Hnp|]. split; [exact Hd|exact Hdial].
Qed.

Lemma duplicate_is_reported_but_still_dialled_witness :
  let a := mkLNAdr None [x01] "10.0.0.1:10011" "pkh@10.0.0.1:10011" in
  let p := mkPeer 7 a in
  let x := with_peers {[ 7 := p ]} (started_server []) in
  exists x',
    ConnectToPeer_served a [p] None (mkPeer 8 a) x
    = (Done (Some (ErrAlreadyConnected a)), x') /\
    qh x' = QhReceiving /\
    newPeers (srv (sw x')) = [Some (mkPeer 8 a)] /\
    delivered (fresh (dom (chans (sw x)))) (sw x')
    = [Some (ErrAlreadyConnected a); None].
Proof.
  cbv zeta.
  destruct (duplicate_is_reported_but_still_dialled
              (mkLNAdr None [x01] "10.0.0.1:10011" "pkh@10.0.0.1:10011")
              [mkPeer 7 (mkLNAdr None [x01] "10.0.0.1:10011" "pkh@10.0.0.1:10011")]
              (mkPeer 8 (mkLNAdr None [x01] "10.0.0.1:10011" "pkh@10.0.0.1:10011"))
              (with_peers {[ 7 := mkPeer 7 (mkLNAdr None [x01] "10.0.0.1:10011"
                                              "pkh@10.0.0.1:10011") ]}
                 (started_server []))
              (mkPeer 7 (mkLNAdr None [x01] "10.0.0.1:10011" "pkh@10.0.0.1:10011"))
              [] eq_refl eq_refl eq_refl)
    as (x' & HC & Hq & Hnp & Hd & _).
  - cbn. lia.
  - unfold newPeers_cap. vm_compute. lia.
  - exists x'. split; [exact HC|]. split; [exact Hq|]. split; [exact Hnp|exact Hd].
Defined.

(** *** Workers and the quit channel *)

Lemma queryHandler_turn_wg_quit (c : qh_case) (iter : list peer) (w w' : world)
    (r : outcome ctl) :
  queryHandler_turn c iter w = (r, w') ->
  srv w' = srv w /\ (r = Done Break -> quit (srv w) = true).
Proof.
  intros H. split.
  - pose proof (queryHandler_turn_srv c iter w) as Hs. by rewrite H in Hs.
  - intros ->. destruct c as [[msg|ty]|]; cbn [queryHandler_turn] in H.
    + unfold mbind, M_bind in H. destruct (dupScan msg iter w) as [[[]| |] ?]; done.
    + done.
    + unfold quit_recv, mbind, M_bind, mret, M_ret, get in H.
      by destruct (quit (srv w)).
Qed.

(** X7: a worker returns only after the quit channel has been closed, and
    then it has taken exactly one off the wait-group counter: this holds of
    the peer-set mutator and of the query processor, whatever cases their
    [select] took before. *)
Theorem workers_return_only_after_quit (w w' : world) :
  (forall sched, peerManager sched w = (Done tt, w') ->
     quit (srv w') = true /\ wg (srv w') = wg (srv w) - 1) /\
  (forall sched, queryHandler sched w = (Done tt, w') ->
     quit (srv w') = true /\ wg (srv w') = wg (srv w) - 1).
Proof.
  split.
  - intros sched. revert w. induction sched as [|c sched IH]; intros w H; [done|].
    cbn [peerManager] in H. unfold mbind, M_bind in H.
    destruct (peerManager_turn c w) as [r w1] eqn:Hturn.
    apply peerManager_turn_wg_quit in Hturn as (Hwg & Hq & Hbreak).
    destruct r as [[|]| |]; [| |done..].
    + apply IH in H as [? ?]. split; [done|]. by rewrite <- Hwg.
    + injection H as <-. destruct w1 as [[] ? ?]. cbn in *.
      split; [rewrite Hq; by apply Hbreak|lia].
  - intros sched. revert w. induction sched as [|[c iter] sched IH]; intros w H; [done|].
    cbn [queryHandler] in H. unfold mbind, M_bind in H.
    destruct (queryHandler_turn c iter w) as [r w1] eqn:Hturn.
    apply queryHandler_turn_wg_quit in Hturn as (Hs & Hbreak).
    destruct r as [[|]| |]; [| |done..].
    + apply IH in H as [? ?]. split; [done|]. by rewrite <- Hs.
    + injection H as <-. rewrite <- Hs in Hbreak |- *.
      destruct w1 as [[] ? ?]. cbn in *.
      split; [by apply Hbreak|lia].
Qed.

Lemma workers_return_only_after_quit_witness :
  let w := with_srv (fun s => set_quit true (set_wg 2 s)) (newServer []) in
  let w' := with_srv (fun s => set_quit true (set_wg 1 s)) (newServer []) in
  peerManager [PmDonePeer; PmQuit]
    (with_srv (set_donePeers [None]) w) = (Done tt, w') /\
  quit (srv w') = true /\ wg (srv w') = wg (srv (with_srv (set_donePeers [None]) w)) - 1.
Proof.
  cbv zeta. split; [reflexivity|].
  apply (proj1 (workers_return_only_after_quit
                  (with_srv (set_donePeers [None])
                     (with_srv (fun s => set_quit true (set_wg 2 s)) (newServer [])))
                  (with_srv (fun s => set_quit true (set_wg 1 s)) (newServer [])))
           [PmDonePeer; PmQuit]).
  reflexivity.
Defined.

(** *** The one-shot counters, over many calls *)

Lemma Stop__again (w : world) :
  is_int32 (shutdown (srv w)) -> shutdown (srv w) ≠ 0 ->
  Stop_ w = (Done tt, with_srv (set_shutdown (wrap32 (shutdown (srv w) + 1))) w).
Proof.
  intros Hint Hne. unfold Stop_.
  by rewrite (bind_Done _ _ _ _ _ (Stop_again w Hint Hne)).
Qed.

Lemma Stop_repeated (n : nat) (j : Z) (w : world) :
  0 < j -> j + Z.of_nat n < 2 ^ 32 -> shutdown (srv w) = wrap32 j ->
  repeatM n Stop_ w
  = (Done tt, with_srv (set_shutdown (wrap32 (j + Z.of_nat n))) w).
Proof.
  revert j w. induction n as [|n IH]; intros j w Hj Hn Hst.
  - cbn [repeatM]. rewrite Z.add_0_r, <- Hst. by destruct w as [[] ? ?].
  - cbn [repeatM].
    erewrite bind_Done;
      [|apply Stop__again; rewrite Hst; [apply wrap32_is_int32|apply wrap32_nonzero; lia]].
    rewrite (IH (j + 1)); [|lia|lia|].
    + replace (j + Z.of_nat (S n)) with (j + 1 + Z.of_nat n) by lia.
      by destruct w as [[] ? ?].
    + cbn. rewrite Hst. apply wrap32_succ.
Qed.

(** X8: when the [Close] of a listener fails, [Stop] returns that error
    having closed the listeners up to that one and nothing else: the
    listeners after it stay open, the RPC server and the wallet are not
    stopped and the quit channel is not closed. No later [Stop] makes up for
    it: each only counts, so the mutator never gets its quit signal. *)
Theorem Stop_after_failed_Close_never_shuts_down (w : world) (e : error) :
  shutdown (srv w) = 0 -> quit (srv w) = false ->
  first_close_error (listeners (srv w)) = Some e ->
  exists k l w1,
    listeners (srv w) !! k = Some l /\ closeErr l = Some e /\
    Stop w = (Done (Some e), w1) /\
    trace w1 = trace w ++ (EvListenerClose <$> seq 0 (S k)) /\
    quit (srv w1) = false /\
    forall n : nat, Z.of_nat n < 2 ^ 32 - 1 ->
      exists wn,
        repeatM n Stop_ w1 = (Done tt, wn) /\
        trace wn = trace w1 /\
        quit (srv wn) = false /\
        forall sched, fst (peerManager (PmQuit :: sched) wn) = Parked.
Proof.
  intros Hsh Hq He.
  destruct (first_close_error_at _ _ He) as (k & l & Hk & Hl & Hmade & _).
  pose proof (Stop_first w Hsh Hq) as H1. cbv zeta in H1.
  rewrite He, Hmade in H1.
  eexists k, l, _. split; [exact Hk|]. split; [exact Hl|]. split; [exact H1|].
  split; [reflexivity|]. split; [by destruct w as [[] ? ?]; cbn in *|].
  intros n Hn.
  eexists. split.
  { apply (Stop_repeated n 1); [lia|lia|by destruct w as [[] ? ?]]. }
  split; [reflexivity|]. split; [by destruct w as [[] ? ?]; cbn in *|].
  intros sched. destruct w as [[st sh ls ps np dp g qt] ch tr]. cbn in Hq. subst qt.
  reflexivity.
Qed.

Lemma Stop_after_failed_Close_never_shuts_down_witness :
  let e := ErrExternal "close failed" in
  let w := newServer [mkListener "0.0.0.0:10011" None;
                      mkListener "[::]:10011" (Some e);
                      mkListener "127.0.0.1:10012" None] in
  exists w1,
    Stop w = (Done (Some e), w1) /\
    trace w1 = [EvListenerClose 0; EvListenerClose 1] /\
    quit (srv w1) = false.
Proof.
  cbv zeta.
  destruct (Stop_after_failed_Close_never_shuts_down
              (newServer [mkListener "0.0.0.0:10011" None;
                          mkListener "[::]:10011" (Some (ErrExternal "close failed"));
                          mkListener "127.0.0.1:10012" None])
              (ErrExternal "close failed") eq_refl eq_refl eq_refl)
    as (k & l & w1 & _ & _ & HS & _ & Hq & _).
  exists w1. split; [exact HS|]. split; [|exact Hq].
  injection HS as <-. reflexivity.
Defined.

(** X9: of up to 2^32 - 1 calls of [Start] in a row on a server not yet
    started, the first launches the workers and every later one only adds
    one to the started counter. *)
Theorem Start_many_times_launches_once (w : world) (n : nat) :
  started (srv w) = 0 -> Z.of_nat n < 2 ^ 32 - 1 ->
  (Start ≫= fun _ => repeatM n Start) w
  = (Done tt,
     with_trace (fun t => t ++ launches (listeners (srv w)))
       (with_srv (fun s => set_wg (wg s + Z.of_nat (length (listeners s)) + 2)
                             (set_started (wrap32 (1 + Z.of_nat n)) s)) w)).
Proof.
  intros H0 Hn. rewrite (bind_Done _ _ _ _ _ (Start_first w H0)).
  rewrite (Start_repeated n 1); [|lia|lia|by destruct w as [[] ? ?]].
  by destruct w as [[] ? ?].
Qed.

Lemma Start_many_times_launches_once_witness :
  let w := newServer [mkListener "0.0.0.0:10011" None] in
  (Start ≫= fun _ => repeatM 3 Start) w
  = (Done tt,
     with_trace (fun t => t ++ [EvGo (GoListener 0); EvGo GoPeerManager; EvGo GoQueryHandler])
       (with_srv (fun s => set_wg 3 (set_started 4 s)) w)).
Proof.
  cbv zeta.
  apply (Start_many_times_launches_once
           (newServer [mkListener "0.0.0.0:10011" None]) 3 eq_refl).
  cbn. lia.
Defined.

(** X10: the started counter is a 32-bit integer. After 2^32 calls of
    [Start] on a server not yet started it reads 0 again, the workers having
    been launched once; the call after that launches them a second time. *)
Theorem Start_counter_wraps_after_2_32_calls (w : world) :
  started (srv w) = 0 ->
  exists w',
    repeatM (Z.to_nat (2 ^ 32)) Start w = (Done tt, w') /\
    started (srv w') = 0 /\
    trace w' = trace w ++ launches (listeners (srv w)) /\
    trace (snd (Start w'))
    = trace w ++ launches (listeners (srv w)) ++ launches (listeners (srv w)).
Proof.
  intros H0.
  remember (Z.to_nat (2 ^ 32 - 2)) as n0 eqn:En0.
  assert (Hn0 : Z.of_nat n0 = 2 ^ 32 - 2) by lia.
  assert (Hnat : Z.to_nat (2 ^ 32) = S (n0 + 1)) by lia.
  rewrite Hnat. clear Hnat En0.
  change (repeatM (S (n0 + 1)) Start w)
    with ((Start ≫= fun _ => repeatM (n0 + 1) Start) w).
  rewrite (bind_Done _ _ _ _ _ (Start_first w H0)).
  rewrite repeatM_app.
  erewrite bind_Done;
    [|apply (Start_repeated n0 1); [lia|lia|by destruct w as [[] ? ?]]].
  rewrite Hn0. change (wrap32 (1 + (2 ^ 32 - 2))) with (-1).
  change (repeatM 1 Start) with (Start ≫= fun _ => mret tt).
  erewrite bind_Done; [|apply Start_counter_comes_round; by destruct w as [[] ? ?]].
  eexists. split; [reflexivity|]. split; [by destruct w as [[] ? ?]|].
  split; [by destruct w as [[] ? ?]|].
  rewrite Start_first by (by destruct w as [[] ? ?]).
  destruct w as [[] ? ?]. cbn. by rewrite <- app_assoc.
Qed.

Lemma Start_counter_wraps_after_2_32_calls_witness :
  exists w',
    repeatM (Z.to_nat (2 ^ 32)) Start (newServer []) = (Done tt, w') /\
    started (srv w') = 0 /\
    trace (snd (Start w'))
    = [EvGo GoPeerManager; EvGo GoQueryHandler; EvGo GoPeerManager; EvGo GoQueryHandler].
Proof.
  destruct (Start_counter_wraps_after_2_32_calls (newServer []) eq_refl)
    as (w' & HR & Hs & _ & Ht).
  exists w'. split; [exact HR|]. split; [exact Hs|exact Ht].
Defined.

(** *** The accept loop and the whole lifecycle *)

Lemma accepted_events (r : accept_result) (x : lworld) :
  accepted r x = mkLworld (lw x) (lout x ++ accept_events r).
Proof. by destruct r. Qed.

Lemma listener_loop_shutdown (accepts : list accept_result) (x : lworld) :
  shutdown (srv (lw x)) ≠ 0 -> listener_loop accepts x = (Done tt, wg_Done x).
Proof. intros Hsh. destruct accepts; cbn; by rewrite decide_False. Qed.

Lemma listener_loop_parks (accepts : list accept_result) (x : lworld) :
  shutdown (srv (lw x)) = 0 ->
  listener_loop accepts x
  = (Parked, mkLworld (lw x) (lout x ++ concat (accept_events <$> accepts))).
Proof.
  revert x. induction accepts as [|r accepts IH]; intros x Hsh.
  - cbn. rewrite decide_True by done. destruct x. cbn. by rewrite app_nil_r.
  - cbn [listener_loop]. rewrite decide_True by done.
    rewrite IH by (by destruct r). rewrite accepted_events. cbn.
    by rewrite <- app_assoc.
Qed.

Lemma listener_loop_checked_parks (accepts : list accept_result) (x : lworld) :
  shutdown (srv (lw x)) = 0 ->
  listener_loop_checked accepts x
  = (Parked, mkLworld (lw x) (lout x ++ concat (accept_events <$> accepts))).
Proof.
  revert x. induction accepts as [|r accepts IH]; intros x Hsh.
  - cbn. rewrite decide_True by done. destruct x. cbn. by rewrite app_nil_r.
  - cbn [listener_loop_checked]. rewrite decide_True by done.
    rewrite IH by (by destruct r). rewrite accepted_events. cbn.
    by rewrite <- app_assoc.
Qed.

Lemma listener_loop_checked_shutdown (accepts : list accept_result) (x : lworld) :
  shutdown (srv (lw x)) ≠ 0 -> listener_loop_checked accepts x = wg_Done_checked x.
Proof. intros Hsh. destruct accepts; cbn; by rewrite decide_False. Qed.



Lemma listeners_woken_after_shutdown (errs : list error) (x : lworld) :
  shutdown (srv (lw x)) ≠ 0 ->
  listeners_woken errs x
  = (Done tt,
     mkLworld (with_srv (fun s => set_wg (wg s - Z.of_nat (length errs)) s) (lw x))
              (lout x ++ (AePrintln <$> errs))).
Proof.
  revert x. induction errs as [|err errs IH]; intros x Hsh.
  - destruct x as [[[] ? ?] ?]. cbn. unfold with_srv, set_wg. cbn.
    by rewrite Z.sub_0_r, app_nil_r.
  - cbn [listeners_woken].
    rewrite listener_loop_shutdown by (by destruct x).
    rewrite IH by (by destruct x as [[[] ? ?] ?]).
    destruct x as [[[] ? ?] ?]. unfold wg_Done, accepted, with_srv, set_wg. cbn.
    rewrite <- app_assoc. do 3 f_equal. f_equal. lia.
Qed.

(** X12: a whole life of the server. [Start] on a new server adds one to the
    wait group for each listener and two for the mutator and the query
    processor, and the accept loops run. When afterwards [Stop] finds every
    listener closing without error, it returns nil, and every worker returns:
    the mutator and the query processor on the closed quit channel, each
    accept loop at its next test once its [Accept] has returned. The
    wait-group counter is then back where it was before [Start]. *)
Theorem Start_then_Stop_returns_every_worker (w : world) (errs : list error) :
  started (srv w) = 0 -> shutdown (srv w) = 0 -> quit (srv w) = false ->
  (forall l, l ∈ listeners (srv w) -> closeErr l = None) ->
  length errs = length (listeners (srv w)) ->
  exists w1 w2 w3 w4 x5,
    Start w = (Done tt, w1) /\
    wg (srv w1) = wg (srv w) + Z.of_nat (length (listeners (srv w))) + 2 /\
    (forall accepts, fst (listener_loop accepts (mkLworld w1 [])) = Parked) /\
    Stop w1 = (Done None, w2) /\
    peerManager [PmQuit] w2 = (Done tt, w3) /\
    queryHandler [(QhQuit, [])] w3 = (Done tt, w4) /\
    listeners_woken errs (mkLworld w4 []) = (Done tt, x5) /\
    wg (srv (lw x5)) = wg (srv w).
Proof.
  intros Hst Hsh Hq Hall Hlen.
  destruct w as [[st sh ls ps np dp g qt] ch tr]. cbn in Hst, Hsh, Hq, Hall, Hlen.
  subst st sh qt.
  destruct (first_close_error_None ls Hall) as [Herr Hmade].
  eexists _, _, _, _, _.
  split; [by apply Start_first|]. split; [reflexivity|].
  split.
  { intros accepts.
    by rewrite listener_loop_parks. }
  split.
  { rewrite Stop_first by reflexivity. cbv zeta.
    cbn [srv with_trace with_srv set_wg set_started listeners].
    rewrite Herr. reflexivity. }
  split; [reflexivity|]. split; [reflexivity|].
  split.
  { apply listeners_woken_after_shutdown. cbn. lia. }
  cbn. rewrite Hlen. lia.
Qed.

Lemma Start_then_Stop_returns_every_worker_witness :
  let w := newServer [mkListener "0.0.0.0:10011" None; mkListener "[::]:10011" None] in
  let closed := ErrExternal "use of closed network connection" in
  exists w1 w2 w3 w4 x5,
    Start w = (Done tt, w1) /\
    wg (srv w1) = 4 /\
    Stop w1 = (Done None, w2) /\
    peerManager [PmQuit] w2 = (Done tt, w3) /\
    queryHandler [(QhQuit, [])] w3 = (Done tt, w4) /\
    listeners_woken [closed; closed] (mkLworld w4 []) = (Done tt, x5) /\
    wg (srv (lw x5)) = 0.
Proof.
  cbv zeta.
  destruct (Start_then_Stop_returns_every_worker
              (newServer [mkListener "0.0.0.0:10011" None; mkListener "[::]:10011" None])
              [ErrExternal "use of closed network connection";
               ErrExternal "use of closed network connection"]
              eq_refl eq_refl eq_refl)
    as (w1 & w2 & w3 & w4 & x5 & H1 & Hwg & _ & H2 & H3 & H4 & H5 & H6).
  - intros l Hl. cbn [newServer srv listeners] in Hl.
    apply elem_of_cons in Hl as [->|Hl]; [reflexivity|].
    apply elem_of_cons in Hl as [->|Hl]; [reflexivity|].
    by apply elem_of_nil in Hl.
  - reflexivity.
  - exists w1, w2, w3, w4, x5. by repeat split.
Defined.

(** X18: nothing is ever taken out of the peer map. [removePeer] has an empty
    body, so whatever cases the mutator's [select] takes, every identifier
    registered before is registered after; a registered peer that reports
    itself done stays in the map. *)
Theorem peer_map_never_shrinks (sched : list pm_case) (w : world) (id : Z) :
  is_Some (peers (srv w) !! id) ->
  is_Some (peers (srv (snd (peerManager sched w))) !! id) /\
  (forall p q, donePeers (srv w) = Some p :: q -> peerID p = id ->
     peers (srv (snd (peerManager_turn PmDonePeer w))) !! id = peers (srv w) !! id).
Proof.
  intros Hid. split.
  - revert w Hid. induction sched as [|c sched IH]; intros w Hid; [done|].
    cbn [peerManager]. unfold mbind, M_bind.
    destruct (peerManager_turn c w) as [r w1] eqn:Hturn.
    assert (Hid1 : is_Some (peers (srv w1) !! id)).
    { destruct w as [[st sh ls ps np dp g qt] ch tr]. cbn in Hid.
      destruct c; unfold peerManager_turn, newPeers_recv, donePeers_recv, quit_recv,
        addPeer, removePeer, mbind, M_bind, mret, M_ret, get, modify, emit in Hturn;
        cbn in Hturn.
      - destruct np as [|[p|] np]; cbn in Hturn; try destruct (decide (sh ≠ 0));
          injection Hturn as _ <-; cbn; try done.
        destruct (decide (peerID p = id)) as [->|Hne].
        + rewrite lookup_insert_eq. by eexists.
        + by rewrite lookup_insert_ne.
      - destruct dp as [|p dp]; cbn in Hturn; by injection Hturn as _ <-.
      - destruct qt; cbn in Hturn; by injection Hturn as _ <-. }
    destruct r as [[|]| |]; cbn [snd]; [by apply IH| |done..].
    by destruct w1 as [[] ? ?].
  - intros p q Hq _.
    destruct w as [[st sh ls ps np dp g qt] ch tr]. cbn in Hq. subst dp.
    reflexivity.
Qed.

Lemma peer_map_never_shrinks_witness :
  let a := mkLNAdr None [x01] "10.0.0.1:10011" "pkh@10.0.0.1:10011" in
  let p := mkPeer 7 a in
  let w := with_srv (fun s => set_donePeers [Some p] (set_peers {[ 7 := p ]} s))
             (newServer []) in
  is_Some (peers (srv (snd (peerManager [PmDonePeer; PmDonePeer] w))) !! 7).
Proof.
  cbv zeta.
  refine (proj1 (peer_map_never_shrinks [PmDonePeer; PmDonePeer] _ 7 _)).
  cbn [srv with_srv set_donePeers set_peers peers newServer].
  rewrite lookup_singleton_eq. by eexists.
Defined.

(** X19: [Start] does not look at the shutdown flag. On a server that [Stop]
    has already shut down, the first [Start] still launches every worker and
    adds them to the wait group; the workers then return by themselves: the
    mutator and the query processor on the closed quit channel, each accept
    loop at its first test, without calling [Accept]. *)
Theorem Start_after_Stop_launches_workers_that_return (w : world) :
  started (srv w) = 0 -> shutdown (srv w) = 0 -> quit (srv w) = false ->
  (forall l, l ∈ listeners (srv w) -> closeErr l = None) ->
  exists w1 w2 w3 w4,
    Stop w = (Done None, w1) /\
    Start w1 = (Done tt, w2) /\
    trace w2 = trace w1 ++ launches (listeners (srv w)) /\
    wg (srv w2) = wg (srv w) + Z.of_nat (length (listeners (srv w))) + 2 /\
    peerManager [PmQuit] w2 = (Done tt, w3) /\
    queryHandler [(QhQuit, [])] w3 = (Done tt, w4) /\
    forall accepts out,
      listener_loop accepts (mkLworld w4 out) = (Done tt, wg_Done (mkLworld w4 out)).
Proof.
  intros Hst Hsh Hq Hall.
  destruct w as [[st sh ls ps np dp g qt] ch tr]. cbn in Hst, Hsh, Hq, Hall.
  subst st sh qt.
  destruct (first_close_error_None ls Hall) as [Herr Hmade].
  eexists _, _, _, _.
  split.
  { rewrite Stop_first by reflexivity. cbv zeta. cbn [srv listeners].
    rewrite Herr. reflexivity. }
  split; [by apply Start_first|].
  split; [reflexivity|]. split; [reflexivity|].
  split; [reflexivity|]. split; [reflexivity|].
  intros accepts out. apply listener_loop_shutdown. cbn. lia.
Qed.

Lemma Start_after_Stop_launches_workers_that_return_witness :
  let w := newServer [mkListener "0.0.0.0:10011" None] in
  exists w1 w2,
    Stop w = (Done None, w1) /\
    Start w1 = (Done tt, w2) /\
    wg (srv w2) = 3.
Proof.
  cbv zeta.
  destruct (Start_after_Stop_launches_workers_that_return
              (newServer [mkListener "0.0.0.0:10011" None]) eq_refl eq_refl eq_refl)
    as (w1 & w2 & w3 & w4 & H1 & H2 & _ & Hwg & _).
  - intros l Hl. cbn [newServer srv listeners] in Hl.
    apply elem_of_cons in Hl as [->|Hl]; [reflexivity|].
    by apply elem_of_nil in Hl.
  - exists w1, w2. split; [exact H1|]. split; [exact H2|exact Hwg].
Defined.

(** *** Building the server *)

Lemma openListeners_all (NewListener : string -> error + listener)
    (addrs : list string) (lns : list listener) :
  Forall2 (fun a ln => NewListener a = inr ln) addrs lns ->
  openListeners NewListener addrs = (lns, None).
Proof.
  induction 1 as [|a ln addrs lns Ha _ IH]; [reflexivity|].
  cbn [openListeners]. by rewrite Ha, IH.
Qed.

Lemma openListeners_first_error (NewListener : string -> error + listener)
    (before after : list string) (a : string) (lns : list listener) (err : error) :
  Forall2 (fun a ln => NewListener a = inr ln) before lns ->
  NewListener a = inl err ->
  openListeners NewListener (before ++ a :: after) = (lns, Some err).
Proof.
  intros Hbefore Ha.
  induction Hbefore as [|a0 ln before lns Ha0 _ IH]; cbn [app openListeners].
  - by rewrite Ha.
  - by rewrite Ha0, IH.
Qed.

(** X13: [newServer] opens the listeners in the order of [listenAddrs] and
    returns at the first failure. If the identity key cannot be had, it
    returns that error and opens no listener. If every address opens, the
    server holds the listeners in that order and is neither started nor
    shutting down, with an empty peer map, empty queues and an open quit
    channel. If an address fails to open, [newServer] returns that error and
    no server; the addresses after it are not tried, and the listeners opened
    before it are left as they are: nothing closes them. *)
Theorem newServer_opens_in_order_until_first_error
    (l : wallet) (NewListener : list byte -> string -> error + listener) :
  (forall err addrs,
     fst (getIdentityPrivKey l) = Done (inl err) ->
     newServerFrom l NewListener addrs = (Done (inl err), [])) /\
  (forall privKey addrs lns,
     fst (getIdentityPrivKey l) = Done (inr privKey) ->
     Forall2 (fun a ln => NewListener privKey a = inr ln) addrs lns ->
     newServerFrom l NewListener addrs = (Done (inr (newServer lns)), lns) /\
     length lns = length addrs /\
     srv (newServer lns) = mkServer 0 0 lns ∅ [] [] 0 false) /\
  (forall privKey before a after lns err,
     fst (getIdentityPrivKey l) = Done (inr privKey) ->
     Forall2 (fun a ln => NewListener privKey a = inr ln) before lns ->
     NewListener privKey a = inl err ->
     newServerFrom l NewListener (before ++ a :: after) = (Done (inl err), lns) /\
     length lns = length before).
Proof.
  split; [|split].
  - intros err addrs Hkey. unfold newServerFrom. by rewrite Hkey.
  - intros privKey addrs lns Hkey Hall. unfold newServerFrom. rewrite Hkey.
    rewrite (openListeners_all _ _ _ Hall).
    split; [reflexivity|]. split; [|reflexivity].
    symmetry. by eapply Forall2_length.
  - intros privKey before a after lns err Hkey Hbefore Ha.
    unfold newServerFrom. rewrite Hkey.
    rewrite (openListeners_first_error _ _ _ _ _ _ Hbefore Ha).
    split; [reflexivity|]. symmetry. by eapply Forall2_length.
Qed.

Lemma newServer_opens_in_order_until_first_error_witness :
  let l := mkWallet (inr "1LNDidentity")
             (fun _ => inr (ManagedPubKeyAddress [x02; xab] (inr [x11; x22]))) in
  let NewListener := fun (_ : list byte) (a : string) =>
    if decide (a = "bad:0") then inl (ErrExternal "listen: address in use")
    else inr (mkListener a None) in
  newServerFrom l NewListener ["0.0.0.0:10011"; "bad:0"; "[::]:10011"]
  = (Done (inl (ErrExternal "listen: address in use")),
     [mkListener "0.0.0.0:10011" None]).
Proof.
  cbv zeta.
  refine (proj1 (proj2 (proj2 (newServer_opens_in_order_until_first_error _ _))
                  [x11; x22] ["0.0.0.0:10011"] "bad:0" ["[::]:10011"]
                  [mkListener "0.0.0.0:10011" None] _ _ _ _)).
  - reflexivity.
  - repeat constructor.
  - reflexivity.
Defined.

End ServerExtra.
